(** * gector: the HNSW index engine of [engine.go]

    A shallow embedding of the Go package [gector] (file [engine.go]) and
    of the part of Go's [sort] package it calls, with the properties of
    the engine proved over it.

    Conventions of the embedding.
    - A Go [int] is a [Z] in the 64-bit range. The one subtraction on a
      value the caller controls, [hnsw.MaxLevels - 1], is written with its
      wrap-around ([wrap]); the other arithmetic of the engine and of the
      sort ([level--] under [level > 0], [i++] under [i < n], sums and
      differences of indexes of a slice) stays within the indexes of a
      slice and does not wrap.
    - A [float64] is a primitive binary64 float ([PrimFloat.float]), every
      operation rounded on its own (no fused multiply-add).
    - A Go map is a [gmap]; a [nil] map is [None]. The order in which
      [range] visits a map is not defined by the language: it is an input
      of every operation that ranges over a map (the [oracle]).
    - [*HNSWNode] pointers are locations in an explicit heap, so that the
      sharing of one node object between tables is visible.
    - A run-time panic is an [outcome] of its own. *)

From Stdlib Require Import ZArith PrimFloat.
From stdpp Require Import gmap strings list fin_maps.

Local Open Scope Z_scope.

(** ** Outcomes: a result or a run-time panic *)

Inductive panic : Set :=
  | IndexOutOfRange   (* index out of range [i] with length n *)
  | SliceBounds       (* slice bounds out of range [:k] *)
  | NilDereference    (* invalid memory address or nil pointer dereference *)
  | MakeSliceLen      (* makeslice: len out of range *)
  | FuelExhausted.    (* a loop of the model ran out of fuel: no Go counterpart *)

Inductive outcome (A : Type) : Type :=
  | Ret (a : A)
  | Panic (e : panic).

Arguments Ret {A} a.
Arguments Panic {A} e.

#[global] Instance outcome_ret : MRet outcome := fun A a => Ret a.
#[global] Instance outcome_bind : MBind outcome := fun A B f m =>
  match m with
  | Ret a => f a
  | Panic e => Panic e
  end.

#[global] Instance outcome_fmap : FMap outcome := fun A B f m =>
  match m with
  | Ret a => Ret (f a)
  | Panic e => Panic e
  end.

Definition returns {A} (m : outcome A) : Prop := ∃ a, m = Ret a.

(** [s[i]] on a slice: panics outside [0 <= i < len(s)]. *)
Definition index {A} (s : list A) (i : Z) : outcome A :=
  if 0 <=? i then
    match s !! Z.to_nat i with
    | Some x => Ret x
    | None => Panic IndexOutOfRange
    end
  else Panic IndexOutOfRange.

(** The [int] that a 64-bit [int] operation of mathematical value [z]
    yields. *)
Definition wrap (z : Z) : Z := (z + 2 ^ 63) `mod` 2 ^ 64 - 2 ^ 63.

(** [make([]T, n)] for an element type of 8 bytes panics when [n] is
    negative or above [maxAlloc / 8], with [maxAlloc = 2^48] on the 64-bit
    platforms. *)
Definition max_slice_len : Z := 2 ^ 45.

(** A counted loop [for i := lo; i < lo + n; i++ { body i }] over a state. *)
Fixpoint for_range {St} (body : Z → St → outcome St) (lo : Z) (n : nat) (s : St)
  : outcome St :=
  match n with
  | O => Ret s
  | S n' => s' ← body lo s; for_range body (lo + 1) n' s'
  end.

(** A counted loop [for i := hi; i > hi - n; i-- { body i }] over a state. *)
Fixpoint for_down {St} (body : Z → St → outcome St) (hi : Z) (n : nat) (s : St)
  : outcome St :=
  match n with
  | O => Ret s
  | S n' => s' ← body hi s; for_down body (hi - 1) n' s'
  end.

(** ** Go's [sort.SliceStable] (package sort, [zsortfunc.go])

    [SliceStable(x, less)] runs [stable_func(lessSwap{less, swap}, len(x))]
    where [swap] exchanges two elements of [x] and [less] is the caller's
    function of two indexes. The sort reads [x] only through [less], a
    closure that may read [x] as the sort has left it so far: [Less] takes
    the current slice. Loops that are not counted take fuel;
    [stable_permutes] below shows that they never use it up. *)

Section Sort.
Context {A : Type}.
Variable Less : list A → Z → Z → outcome bool.

Definition Swap (i j : Z) (data : list A) : outcome (list A) :=
  x ← index data i;
  y ← index data j;
  Ret (<[Z.to_nat j := x]> (<[Z.to_nat i := y]> data)).

(** [for j := i; j > a && data.Less(j, j-1); j-- { data.Swap(j, j-1) }],
    with [j = a + c]. *)
Fixpoint insertion_inner (a : Z) (c : nat) (data : list A) : outcome (list A) :=
  match c with
  | O => Ret data
  | S c' =>
      let j := a + Z.of_nat c in
      lt ← Less data j (j - 1);
      if (lt : bool) then
        data' ← Swap j (j - 1) data;
        insertion_inner a c' data'
      else Ret data
  end.

(** [for i := a + 1; i < b; i++ { ... }] *)
Definition insertionSort_func (a b : Z) (data : list A) : outcome (list A) :=
  for_range (fun i => insertion_inner a (Z.to_nat (i - a)))
            (a + 1) (Z.to_nat (b - (a + 1))) data.

(** [for i := 0; i < n; i++ { data.Swap(a+i, b+i) }] *)
Definition swapRange_func (a b n : Z) (data : list A) : outcome (list A) :=
  for_range (fun i => Swap (a + i) (b + i)) 0 (Z.to_nat n) data.

(** The loop [for i != j] of [rotate_func]; returns the final [i]. *)
Fixpoint rotate_loop (fuel : nat) (m i j : Z) (data : list A)
  : outcome (Z * list A) :=
  if decide (i = j) then Ret (i, data)
  else
    match fuel with
    | O => Panic FuelExhausted
    | S fuel' =>
        if i >? j then
          data' ← swapRange_func (m - i) m j data;
          rotate_loop fuel' m (i - j) j data'
        else
          data' ← swapRange_func (m - i) (m + j - i) i data;
          rotate_loop fuel' m i (j - i) data'
    end.

Definition rotate_func (a m b : Z) (data : list A) : outcome (list A) :=
  let i := m - a in
  let j := b - m in
  '(i, data') ← rotate_loop (Z.to_nat (i + j)) m i j data;
  swapRange_func (m - i) m i data'.

(** A binary search [for i < j { h := int(uint(i+j) >> 1); if test(h)
    { i = h + 1 } else { j = h } }]; returns the final [i]. *)
Fixpoint bsearch (test : Z → outcome bool) (fuel : nat) (i j : Z) : outcome Z :=
  if i <? j then
    match fuel with
    | O => Panic FuelExhausted
    | S fuel' =>
        let h := Z.shiftr (i + j) 1 in
        t ← test h;
        if (t : bool) then bsearch test fuel' (h + 1) j
        else bsearch test fuel' i h
    end
  else Ret i.

Fixpoint symMerge_func (fuel : nat) (a m b : Z) (data : list A)
  : outcome (list A) :=
  match fuel with
  | O => Panic FuelExhausted
  | S fuel' =>
      if m - a =? 1 then
        i ← bsearch (fun h => Less data h a) (Z.to_nat (b - m)) m b;
        (* for k := a; k < i-1; k++ { data.Swap(k, k+1) } *)
        for_range (fun k => Swap k (k + 1)) a (Z.to_nat (i - 1 - a)) data
      else if b - m =? 1 then
        i ← bsearch (fun h => negb <$> Less data m h) (Z.to_nat (m - a)) a m;
        (* for k := m; k > i; k-- { data.Swap(k, k-1) } *)
        for_down (fun k => Swap k (k - 1)) m (Z.to_nat (m - i)) data
      else
        let mid := Z.shiftr (a + b) 1 in
        let n := mid + m in
        let '(start, r) := if m >? mid then (n - b, mid) else (a, m) in
        let p := n - 1 in
        start ← bsearch (fun c => negb <$> Less data (p - c) c)
                        (Z.to_nat (r - start)) start r;
        let end_ := n - start in
        data1 ← (if (start <? m) && (m <? end_)
                 then rotate_func start m end_ data else Ret data);
        data2 ← (if (a <? start) && (start <? mid)
                 then symMerge_func fuel' a start mid data1 else Ret data1);
        if (mid <? end_) && (end_ <? b)
        then symMerge_func fuel' mid end_ b data2 else Ret data2
  end.

(** [for b <= n { insertionSort(data, a, b); a = b; b += blockSize }];
    returns the final [a]. *)
Fixpoint insertion_blocks (fuel : nat) (blockSize a b n : Z) (data : list A)
  : outcome (Z * list A) :=
  if b <=? n then
    match fuel with
    | O => Panic FuelExhausted
    | S fuel' =>
        data' ← insertionSort_func a b data;
        insertion_blocks fuel' blockSize b (b + blockSize) n data'
    end
  else Ret (a, data).

(** [for b <= n { symMerge(data, a, a+blockSize, b); a = b;
    b += 2 * blockSize }]; returns the final [a]. *)
Fixpoint merge_blocks (fuel : nat) (blockSize a b n : Z) (data : list A)
  : outcome (Z * list A) :=
  if b <=? n then
    match fuel with
    | O => Panic FuelExhausted
    | S fuel' =>
        data' ← symMerge_func (Z.to_nat (b - a)) a (a + blockSize) b data;
        merge_blocks fuel' blockSize b (b + 2 * blockSize) n data'
    end
  else Ret (a, data).

(** [for blockSize < n { ...; blockSize *= 2 }] *)
Fixpoint merge_passes (fuel : nat) (blockSize n : Z) (data : list A)
  : outcome (list A) :=
  if blockSize <? n then
    match fuel with
    | O => Panic FuelExhausted
    | S fuel' =>
        '(a, data1) ← merge_blocks (Z.to_nat n) blockSize 0 (2 * blockSize) n data;
        let m := a + blockSize in
        data2 ← (if m <? n then symMerge_func (Z.to_nat (n - a)) a m n data1
                 else Ret data1);
        merge_passes fuel' (blockSize * 2) n data2
    end
  else Ret data.

Definition stable_func (n : Z) (data : list A) : outcome (list A) :=
  let blockSize := 20 in
  '(a, data1) ← insertion_blocks (Z.to_nat n) blockSize 0 blockSize n data;
  data2 ← insertionSort_func a n data1;
  merge_passes (Z.to_nat n) blockSize n data2.

Definition SliceStable (x : list A) : outcome (list A) :=
  stable_func (Z.of_nat (length x)) x.
End Sort.

(** ** The sort returns, and returns a permutation

    Every index the sort hands to [Less] and [Swap] lies in [0, n), so
    when [Less] is defined there the sort runs to its end, never out of
    fuel, and the slice it leaves is a permutation of the one it got. *)

Lemma shiftr_1 (x : Z) : 2 * (x ≫ 1) ≤ x < 2 * (x ≫ 1) + 2.
Proof.
  rewrite Z.shiftr_div_pow2 by done. change (2 ^ 1) with 2.
  pose proof (Z.div_mod x 2 ltac:(done)). pose proof (Z.mod_pos_bound x 2 ltac:(done)).
  lia.
Qed.

Lemma index_Ret {A} (s : list A) (i : Z) :
  0 ≤ i < Z.of_nat (length s) → ∃ x, index s i = Ret x ∧ s !! Z.to_nat i = Some x.
Proof.
  intros Hi. unfold index.
  destruct (Z.leb_spec 0 i); [|lia].
  destruct (lookup_lt_is_Some_2 s (Z.to_nat i)) as [x Hx]; [lia|].
  rewrite Hx. eauto.
Qed.

Lemma index_Ret_inv {A} (s : list A) (i : Z) (x : A) :
  index s i = Ret x → 0 ≤ i < Z.of_nat (length s) ∧ s !! Z.to_nat i = Some x.
Proof.
  unfold index. destruct (Z.leb_spec 0 i); [|done].
  destruct (s !! Z.to_nat i) eqn:E; [|done].
  intros [= ->]. split; [|done].
  apply lookup_lt_Some in E. lia.
Qed.

Lemma insert_head_Permutation {A} (l : list A) (j : nat) (x y : A) :
  l !! j = Some y → y :: <[j := x]> l ≡ₚ x :: l.
Proof.
  revert j. induction l as [|a l IH]; intros [|j] Hj; simplify_eq/=.
  - apply perm_swap.
  - rewrite (perm_swap a y), (IH _ Hj). apply perm_swap.
Qed.

Lemma insert_swap_Permutation {A} (l : list A) (i j : nat) (x y : A) :
  l !! i = Some x → l !! j = Some y → <[j := x]> (<[i := y]> l) ≡ₚ l.
Proof.
  revert i j. induction l as [|a l IH]; intros [|i] [|j] Hi Hj; simplify_eq/=.
  - done.
  - by apply insert_head_Permutation.
  - by apply insert_head_Permutation.
  - f_equiv. by apply IH.
Qed.

Section SortFacts.
Context {A : Type}.
Variable Less : list A → Z → Z → outcome bool.
Variable n : Z.
Hypothesis Less_returns : ∀ data i j,
  Z.of_nat (length data) = n → 0 ≤ i < n → 0 ≤ j < n → returns (Less data i j).

(** [f] runs to its end on a slice of length [n] and permutes it. *)
Definition permutes (f : list A → outcome (list A)) : Prop :=
  ∀ data, Z.of_nat (length data) = n → ∃ data', f data = Ret data' ∧ data' ≡ₚ data.

Lemma Swap_permutes i j : 0 ≤ i < n → 0 ≤ j < n → permutes (Swap i j).
Proof.
  intros Hi Hj data Hn. unfold Swap.
  destruct (index_Ret data i) as (x & -> & Hx); [lia|].
  destruct (index_Ret data j) as (y & -> & Hy); [lia|].
  eexists; split; [done|]. by apply insert_swap_Permutation.
Qed.

Lemma for_range_permutes body lo cnt :
  (∀ i, lo ≤ i < lo + Z.of_nat cnt → permutes (body i)) →
  permutes (for_range body lo cnt).
Proof.
  revert lo. induction cnt as [|cnt IH]; intros lo Hbody data Hn; simpl.
  - by exists data.
  - destruct (Hbody lo ltac:(lia) data Hn) as (d1 & -> & Hp1). simpl.
    destruct (IH (lo + 1) ltac:(intros; apply Hbody; lia) d1) as (d2 & -> & Hp2).
    { by rewrite Hp1. }
    exists d2. split; [done|]. by rewrite Hp2.
Qed.

Lemma for_down_permutes body hi cnt :
  (∀ i, hi - Z.of_nat cnt < i ≤ hi → permutes (body i)) →
  permutes (for_down body hi cnt).
Proof.
  revert hi. induction cnt as [|cnt IH]; intros hi Hbody data Hn; simpl.
  - by exists data.
  - destruct (Hbody hi ltac:(lia) data Hn) as (d1 & -> & Hp1). simpl.
    destruct (IH (hi - 1) ltac:(intros; apply Hbody; lia) d1) as (d2 & -> & Hp2).
    { by rewrite Hp1. }
    exists d2. split; [done|]. by rewrite Hp2.
Qed.

Lemma insertion_inner_permutes a c :
  0 ≤ a → a + Z.of_nat c < n → permutes (insertion_inner Less a c).
Proof.
  intros Ha. induction c as [|c IH]; intros Hc data Hn.
  - by exists data.
  - cbn [insertion_inner].
    destruct (Less_returns data (a + Z.of_nat (S c)) (a + Z.of_nat (S c) - 1))
      as [lt ->]; [done|lia..|]. simpl.
    destruct lt; [|by exists data].
    destruct (Swap_permutes (a + Z.of_nat (S c)) (a + Z.of_nat (S c) - 1)
                ltac:(lia) ltac:(lia) data Hn) as (d1 & -> & Hp1). simpl.
    destruct (IH ltac:(lia) d1) as (d2 & -> & Hp2); [by rewrite Hp1|].
    exists d2. split; [done|]. by rewrite Hp2.
Qed.

Lemma insertionSort_permutes a b :
  0 ≤ a → b ≤ n → permutes (insertionSort_func Less a b).
Proof.
  intros Ha Hb. apply for_range_permutes. intros i Hi.
  apply insertion_inner_permutes; lia.
Qed.

Lemma swapRange_permutes a b cnt :
  0 ≤ a → 0 ≤ b → a + cnt ≤ n → b + cnt ≤ n →
  permutes (swapRange_func (A:=A) a b cnt).
Proof.
  intros. apply for_range_permutes. intros i Hi.
  apply Swap_permutes; lia.
Qed.
Lemma bsearch_returns test fuel i j :
  i ≤ j → j - i ≤ Z.of_nat fuel →
  (∀ h, i ≤ h < j → returns (test h)) →
  ∃ r, bsearch test fuel i j = Ret r ∧ i ≤ r ≤ j.
Proof.
  revert i j. induction fuel as [|fuel IH]; intros i j Hij Hfuel Htest;
    cbn [bsearch]; destruct (Z.ltb_spec i j); try lia;
    try (exists i; split; [done|lia]).
  pose proof (shiftr_1 (i + j)) as Hh.
  destruct (Htest ((i + j) ≫ 1)) as [t ->]; [lia|]. simpl.
  destruct t.
  - destruct (IH ((i + j) ≫ 1 + 1) j) as (r & -> & Hr); [lia..| |].
    + intros h Hh'. apply Htest. lia.
    + exists r. split; [done|lia].
  - destruct (IH i ((i + j) ≫ 1)) as (r & -> & Hr); [lia..| |].
    + intros h Hh'. apply Htest. lia.
    + exists r. split; [done|lia].
Qed.

Lemma negb_Less_returns data i j :
  Z.of_nat (length data) = n → 0 ≤ i < n → 0 ≤ j < n →
  returns (negb <$> Less data i j).
Proof.
  intros Hn Hi Hj. destruct (Less_returns data i j Hn Hi Hj) as [t ->]. by eexists.
Qed.

Lemma rotate_loop_permutes fuel m i j (data : list A) :
  0 < i → 0 < j → 0 ≤ m - i → m + j ≤ n → i + j ≤ Z.of_nat fuel →
  Z.of_nat (length data) = n →
  ∃ i' data', rotate_loop fuel m i j data = Ret (i', data') ∧
              data' ≡ₚ data ∧ 0 < i' ∧ 0 ≤ m - i' ∧ m + i' ≤ n.
Proof.
  revert i j data. induction fuel as [|fuel IH]; intros i j data Hi Hj Hlo Hhi Hfuel Hn;
    [lia|].
  cbn [rotate_loop]. destruct (decide (i = j)) as [->|Hne].
  { exists j, data. split; [done|]. split; [done|lia]. }
  rewrite Z.gtb_ltb. destruct (Z.ltb_spec j i).
  - destruct (swapRange_permutes (m - i) m j ltac:(lia) ltac:(lia) ltac:(lia)
                ltac:(lia) data Hn) as (d1 & -> & Hp1). simpl.
    destruct (IH (i - j) j d1) as (i' & d2 & -> & Hp2 & ?); [lia..|by rewrite Hp1|].
    exists i', d2. split; [done|]. split; [by rewrite Hp2|lia].
  - destruct (swapRange_permutes (m - i) (m + j - i) i ltac:(lia) ltac:(lia)
                ltac:(lia) ltac:(lia) data Hn) as (d1 & -> & Hp1). simpl.
    destruct (IH i (j - i) d1) as (i' & d2 & -> & Hp2 & ?); [lia..|by rewrite Hp1|].
    exists i', d2. split; [done|]. split; [by rewrite Hp2|lia].
Qed.

Lemma rotate_permutes a m b :
  0 ≤ a → a < m → m < b → b ≤ n → permutes (rotate_func (A:=A) a m b).
Proof.
  intros Ha Hm Hb Hn data Hlen. unfold rotate_func.
  destruct (rotate_loop_permutes (Z.to_nat (m - a + (b - m))) m (m - a) (b - m) data)
    as (i' & d1 & -> & Hp1 & Hi' & Hlo & Hhi); [lia..|]. simpl.
  destruct (swapRange_permutes (m - i') m i' ltac:(lia) ltac:(lia) ltac:(lia)
              ltac:(lia) d1) as (d2 & -> & Hp2); [by rewrite Hp1|].
  exists d2. split; [done|]. by rewrite Hp2.
Qed.

Lemma symMerge_permutes fuel a m b :
  0 ≤ a → a < m → m < b → b ≤ n → b - a ≤ Z.of_nat fuel →
  permutes (symMerge_func Less fuel a m b).
Proof.
  revert a m b. induction fuel as [|fuel IH]; intros a m b Ha Hm Hb Hn Hfuel data Hlen;
    [lia|].
  cbn [symMerge_func]. destruct (Z.eqb_spec (m - a) 1) as [Hma|Hma].
  { destruct (bsearch_returns (λ h, Less data h a) (Z.to_nat (b - m)) m b)
      as (i & -> & Hi); [lia..| |].
    - intros h Hh. apply Less_returns; [done|lia..].
    - simpl. apply for_range_permutes; [|done]. intros k Hk.
      apply Swap_permutes; lia. }
  destruct (Z.eqb_spec (b - m) 1) as [Hbm|Hbm].
  { destruct (bsearch_returns (λ h, negb <$> Less data m h) (Z.to_nat (m - a)) a m)
      as (i & -> & Hi); [lia..| |].
    - intros h Hh. apply negb_Less_returns; [done|lia..].
    - simpl. apply for_down_permutes; [|done]. intros k Hk.
      apply Swap_permutes; lia. }
  pose proof (shiftr_1 (a + b)) as Hmid.
  set (mid := (a + b) ≫ 1) in *.
  assert (∃ start r, (if m >? mid then (mid + m - b, mid) else (a, m)) = (start, r) ∧
            a ≤ start ∧ start ≤ r ∧ r ≤ m ∧ r ≤ mid ∧ mid + m - r ≤ b ∧
            mid ≤ mid + m - r ∧ m ≤ mid + m - start ∧ mid + m - start ≤ b)
    as (start0 & r & -> & Hbounds).
  { rewrite Z.gtb_ltb. destruct (Z.ltb_spec mid m); eexists _, _; (split; [done|lia]). }
  destruct (bsearch_returns (λ c, negb <$> Less data (mid + m - 1 - c) c)
              (Z.to_nat (r - start0)) start0 r) as (start & -> & Hstart); [lia..| |].
  { intros c Hc. apply negb_Less_returns; [done|lia..]. }
  simpl.
  assert (∃ d1, (if (start <? m) && (m <? mid + m - start)
                 then rotate_func start m (mid + m - start) data else Ret data) = Ret d1
                ∧ d1 ≡ₚ data) as (d1 & -> & Hp1).
  { destruct (Z.ltb_spec start m), (Z.ltb_spec m (mid + m - start)); simpl;
      try by exists data.
    apply rotate_permutes; [lia..|done]. }
  simpl.
  assert (∃ d2, (if (a <? start) && (start <? mid)
                 then symMerge_func Less fuel a start mid d1 else Ret d1) = Ret d2
                ∧ d2 ≡ₚ d1) as (d2 & -> & Hp2).
  { destruct (Z.ltb_spec a start), (Z.ltb_spec start mid); simpl;
      try by exists d1.
    apply IH; [lia..|by rewrite Hp1]. }
  simpl.
  destruct (Z.ltb_spec mid (mid + m - start)), (Z.ltb_spec (mid + m - start) b); simpl;
    try (exists d2; split; [done|by rewrite Hp2]).
  destruct (IH mid (mid + m - start) b ltac:(lia) ltac:(lia) ltac:(lia) ltac:(lia)
              ltac:(lia) d2) as (d3 & -> & Hp3); [by rewrite Hp2, Hp1|].
  exists d3. split; [done|]. by rewrite Hp3, Hp2.
Qed.
Lemma insertion_blocks_permutes fuel bs a b (data : list A) :
  0 < bs → 0 ≤ a ≤ n → b = a + bs → n - a ≤ Z.of_nat fuel →
  Z.of_nat (length data) = n →
  ∃ a' data', insertion_blocks Less fuel bs a b n data = Ret (a', data') ∧
              data' ≡ₚ data ∧ 0 ≤ a' ≤ n.
Proof.
  intros Hbs. revert a b data.
  induction fuel as [|fuel IH]; intros a b data Ha -> Hfuel Hlen;
    cbn [insertion_blocks]; destruct (Z.leb_spec (a + bs) n); try lia;
    try (exists a, data; split; [done|]; split; [done|lia]).
  destruct (insertionSort_permutes a (a + bs) ltac:(lia) ltac:(lia)
              data Hlen) as (d1 & -> & Hp1). simpl.
  destruct (IH (a + bs) (a + bs + bs) d1) as (a' & d2 & -> & Hp2 & Ha');
    [lia|done|lia|by rewrite Hp1|].
  exists a', d2. split; [done|]. split; [by rewrite Hp2|lia].
Qed.

Lemma merge_blocks_permutes fuel bs a b (data : list A) :
  0 < bs → 0 ≤ a ≤ n → b = a + 2 * bs → n - a ≤ Z.of_nat fuel →
  Z.of_nat (length data) = n →
  ∃ a' data', merge_blocks Less fuel bs a b n data = Ret (a', data') ∧
              data' ≡ₚ data ∧ 0 ≤ a' ≤ n.
Proof.
  intros Hbs. revert a b data.
  induction fuel as [|fuel IH]; intros a b data Ha -> Hfuel Hlen;
    cbn [merge_blocks]; destruct (Z.leb_spec (a + 2 * bs) n); try lia;
    try (exists a, data; split; [done|]; split; [done|lia]).
  destruct (symMerge_permutes (Z.to_nat (a + 2 * bs - a)) a (a + bs) (a + 2 * bs)
              ltac:(lia) ltac:(lia) ltac:(lia) ltac:(lia) ltac:(lia) data Hlen)
    as (d1 & -> & Hp1). simpl.
  destruct (IH (a + 2 * bs) (a + 2 * bs + 2 * bs) d1) as (a' & d2 & -> & Hp2 & Ha');
    [lia|done|lia|by rewrite Hp1|].
  exists a', d2. split; [done|]. split; [by rewrite Hp2|lia].
Qed.

Lemma merge_passes_permutes fuel bs :
  0 < bs → 0 ≤ n → n - bs ≤ Z.of_nat fuel → permutes (merge_passes Less fuel bs n).
Proof.
  revert bs. induction fuel as [|fuel IH]; intros bs Hbs Hn Hfuel data Hlen;
    cbn [merge_passes]; destruct (Z.ltb_spec bs n); try lia;
    try by exists data.
  destruct (merge_blocks_permutes (Z.to_nat n) bs 0 (2 * bs) data)
    as (a & d1 & -> & Hp1 & Ha); [lia..|done|]. simpl.
  assert (∃ d2, (if a + bs <? n
                 then symMerge_func Less (Z.to_nat (n - a)) a (a + bs) n d1
                 else Ret d1) = Ret d2 ∧ d2 ≡ₚ d1) as (d2 & -> & Hp2).
  { destruct (Z.ltb_spec (a + bs) n); [|by exists d1].
    apply symMerge_permutes; [lia..|by rewrite Hp1]. }
  simpl.
  destruct (IH (bs * 2) ltac:(lia) Hn ltac:(lia) d2) as (d3 & -> & Hp3);
    [by rewrite Hp2, Hp1|].
  exists d3. split; [done|]. by rewrite Hp3, Hp2.
Qed.

Lemma stable_permutes : 0 ≤ n → permutes (stable_func Less n).
Proof.
  intros Hn data Hlen. unfold stable_func.
  destruct (insertion_blocks_permutes (Z.to_nat n) 20 0 20 data)
    as (a & d1 & -> & Hp1 & Ha); [lia..|done|]. simpl.
  destruct (insertionSort_permutes a n ltac:(lia) ltac:(lia) d1)
    as (d2 & -> & Hp2); [by rewrite Hp1|]. simpl.
  destruct (merge_passes_permutes (Z.to_nat n) 20 ltac:(lia) Hn ltac:(lia) d2)
    as (d3 & -> & Hp3); [by rewrite Hp2, Hp1|].
  exists d3. split; [done|]. by rewrite Hp3, Hp2.
Qed.
End SortFacts.

(** [sort.SliceStable] returns whenever [less] is defined on the indexes of
    the slice, and what it leaves is a permutation of the slice. *)
Lemma SliceStable_returns {A} (less : list A → Z → Z → outcome bool) (x : list A) :
  (∀ data i j, length data = length x →
     0 ≤ i < Z.of_nat (length x) → 0 ≤ j < Z.of_nat (length x) →
     returns (less data i j)) →
  ∃ x', SliceStable less x = Ret x' ∧ x' ≡ₚ x.
Proof.
  intros Hless. unfold SliceStable.
  apply (stable_permutes less (Z.of_nat (length x))); [|lia|done].
  intros data i j Hlen. apply Hless. lia.
Qed.

(** A check of the model of the sort on a slice longer than two blocks:
    with the closure [func(i, j int) bool { return x[i].key < x[j].key }],
    which reads the slice [x] being sorted, 45 pairs come out ordered by
    key, pairs of equal key in the order they had. *)
Definition less_key (x : list (Z * Z)) (i j : Z) : outcome bool :=
  xi ← index x i;
  xj ← index x j;
  Ret (xi.1 <? xj.1).

Example SliceStable_sorts_by_key :
  SliceStable less_key
    [(5, 0); (2, 1); (6, 2); (0, 3); (1, 4); (8, 5); (1, 6); (5, 7); (9, 8);
    (0, 9); (8, 10); (3, 11); (0, 12); (1, 13); (6, 14); (6, 15); (1, 16);
    (3, 17); (1, 18); (8, 19); (6, 20); (0, 21); (9, 22); (1, 23); (3, 24);
    (9, 25); (0, 26); (9, 27); (9, 28); (6, 29); (0, 30); (3, 31); (0, 32);
    (8, 33); (2, 34); (4, 35); (6, 36); (2, 37); (8, 38); (1, 39); (9, 40);
    (4, 41); (8, 42); (2, 43); (1, 44)]%Z
  = Ret
    [(0, 3); (0, 9); (0, 12); (0, 21); (0, 26); (0, 30); (0, 32); (1, 4);
    (1, 6); (1, 13); (1, 16); (1, 18); (1, 23); (1, 39); (1, 44); (2, 1);
    (2, 34); (2, 37); (2, 43); (3, 11); (3, 17); (3, 24); (3, 31); (4, 35);
    (4, 41); (5, 0); (5, 7); (6, 2); (6, 14); (6, 15); (6, 20); (6, 29);
    (6, 36); (8, 5); (8, 10); (8, 19); (8, 33); (8, 38); (8, 42); (9, 8);
    (9, 22); (9, 25); (9, 27); (9, 28); (9, 40)]%Z.
Proof. vm_compute. reflexivity. Qed.

(** ** Data model of [engine.go] *)

(** Modelled from the spec: the struct [Vector], declared in a file of the
    package that is not among the sources; its two fields are the ones
    the specification lists, [ID] (a string) and [Values] (a sequence of
    [float64]), and the ones [engine.go] and the tests read. *)
Module Vector.
Record t : Type := { ID : string; Values : list float }.
End Vector.

(** A [*HNSWNode]: the address of a node object in the heap. *)
Abbreviation loc := nat (only parsing).

(** [type HNSWNode struct { ID string; Neighbors []string; Vector Vector }] *)
Module HNSWNode.
Record t : Type := { ID : string; Neighbors : list string; Vector : Vector.t }.
Definition with_Neighbors (neighbors : list string) (node : t) : t :=
  {| ID := ID node; Neighbors := neighbors; Vector := Vector node |}.
End HNSWNode.

(** [type HNSW struct { nodes map[string]*HNSWNode;
    levels []map[string]*HNSWNode; MaxNeighbors int; MaxLevels int }],
    together with the node objects its pointers refer to: [heap] holds the
    [HNSWNode] objects allocated so far, and a pointer is an index into it. *)
Record HNSW : Type := {
  heap : list HNSWNode.t;
  nodes : gmap string loc;
  levels : list (option (gmap string loc));
  MaxNeighbors : Z;
  MaxLevels : Z
}.

Definition with_heap (h : list HNSWNode.t) (hnsw : HNSW) : HNSW :=
  {| heap := h; nodes := nodes hnsw; levels := levels hnsw;
     MaxNeighbors := MaxNeighbors hnsw; MaxLevels := MaxLevels hnsw |}.
Definition with_nodes (m : gmap string loc) (hnsw : HNSW) : HNSW :=
  {| heap := heap hnsw; nodes := m; levels := levels hnsw;
     MaxNeighbors := MaxNeighbors hnsw; MaxLevels := MaxLevels hnsw |}.
Definition with_levels (ls : list (option (gmap string loc))) (hnsw : HNSW) : HNSW :=
  {| heap := heap hnsw; nodes := nodes hnsw; levels := ls;
     MaxNeighbors := MaxNeighbors hnsw; MaxLevels := MaxLevels hnsw |}.

(** What the language leaves open in one call of an operation, indexed by
    the graph level at which it is asked: [flip level] is the outcome of
    the trial [rand.Float64() < 0.5] made while the insertion stands at
    [level], and [order level] is the order in which [range] visits the
    entries of the table of [level] (each operation ranges over a level's
    table at most once). *)
Record oracle : Type := {
  flip : Z → bool;
  order : Z → list (string * loc) → list (string * loc)
}.

(** [range] visits every entry of the map exactly once. *)
Definition fair (o : oracle) : Prop := ∀ level l, order o level l ≡ₚ l.

(** The entries [for id, node := range m] visits, in the order visited;
    ranging over a [nil] map visits nothing. *)
Definition range_map (o : oracle) (level : Z) (m : option (gmap string loc))
  : list (string * loc) :=
  order o level (map_to_list (default ∅ m)).

(** Reading through a [*HNSWNode]. *)
Definition deref (h : list HNSWNode.t) (p : loc) : outcome HNSWNode.t :=
  match h !! p with
  | Some node => Ret node
  | None => Panic NilDereference
  end.

(** [hnsw.nodes[id]] followed by a read of the node: a missing key yields
    the [nil] pointer. *)
Definition deref_key (hnsw : HNSW) (id : string) : outcome HNSWNode.t :=
  match nodes hnsw !! id with
  | Some p => deref (heap hnsw) p
  | None => Panic NilDereference
  end.

(** [s[:k]] for [k] up to [len(s)]. *)
Definition slice_to {A} (s : list A) (k : Z) : outcome (list A) :=
  if (0 <=? k) && (k <=? Z.of_nat (length s)) then Ret (take (Z.to_nat k) s)
  else Panic SliceBounds.

(** ** [euclideanDistance] *)

(** The loop [for i := 0; i < len(v1.Values); i++ { diff := v1.Values[i] -
    v2.Values[i]; sum += diff * diff }] on the values from [i] on. *)
Fixpoint sum_squares (v1 v2 : list float) (sum : float) : outcome float :=
  match v1 with
  | [] => Ret sum
  | x :: v1' =>
      match v2 with
      | [] => Panic IndexOutOfRange
      | y :: v2' =>
          let diff := (x - y)%float in
          sum_squares v1' v2' (sum + diff * diff)%float
      end
  end.

Definition euclideanDistance (v1 v2 : Vector.t) : outcome float :=
  sum ← sum_squares (Vector.Values v1) (Vector.Values v2) 0%float;
  Ret (PrimFloat.sqrt sum).

(** The closure [func(i, j int) bool { return distances[i] < distances[j] }]
    handed to [sort.SliceStable]: it reads [distances] at the two
    positions, and not the slice being sorted. *)
Definition less_distances (distances : list float) (i j : Z) : outcome bool :=
  di ← index distances i;
  dj ← index distances j;
  Ret (di <? dj)%float.

(** ** [findNeighbors] and [addNodeToLevel] *)

(** The body of [for id, otherNode := range hnsw.levels[level]]. *)
Fixpoint findNeighbors_scan (h : list HNSWNode.t) (node : loc)
    (entries : list (string * loc)) (neighbors : list string)
    (distances : list float) : outcome (list string * list float) :=
  match entries with
  | [] => Ret (neighbors, distances)
  | (id, otherNode) :: entries' =>
      n ← deref h node;
      if decide (HNSWNode.ID n = id) then
        findNeighbors_scan h node entries' neighbors distances
      else
        other ← deref h otherNode;
        dist ← euclideanDistance (HNSWNode.Vector n) (HNSWNode.Vector other);
        findNeighbors_scan h node entries' (neighbors ++ [id]) (distances ++ [dist])
  end.

Definition findNeighbors (o : oracle) (hnsw : HNSW) (node : loc) (level : Z)
  : outcome (list string) :=
  m ← index (levels hnsw) level;
  '(neighbors, distances) ←
    findNeighbors_scan (heap hnsw) node (range_map o level m) [] [];
  neighbors ← SliceStable (λ _, less_distances distances) neighbors;
  if Z.of_nat (length neighbors) >? MaxNeighbors hnsw
  then slice_to neighbors (MaxNeighbors hnsw)
  else Ret neighbors.

Definition addNodeToLevel (o : oracle) (node : loc) (level : Z) (hnsw : HNSW)
  : outcome HNSW :=
  m ← index (levels hnsw) level;
  (* if hnsw.levels[level] == nil { hnsw.levels[level] = make(map...) } *)
  let m := default ∅ m in
  n ← deref (heap hnsw) node;
  (* hnsw.levels[level][node.ID] = node *)
  let hnsw1 :=
    with_levels (<[Z.to_nat level := Some (<[HNSWNode.ID n := node]> m)]> (levels hnsw))
                hnsw in
  neighbors ← findNeighbors o hnsw1 node level;
  (* node.Neighbors = neighbors *)
  Ret (with_heap (<[node := HNSWNode.with_Neighbors neighbors n]> (heap hnsw1)) hnsw1).

(** ** The public operations *)

(** [hnsw.MaxLevels - 1], the index of the bottom level. *)
Definition bottom (hnsw : HNSW) : Z := wrap (MaxLevels hnsw - 1).

Definition NewHNSW (maxNeighbors maxLevels : Z) : outcome HNSW :=
  if (maxLevels <? 0) || (max_slice_len <? maxLevels) then Panic MakeSliceLen
  else Ret {| heap := [];
              nodes := ∅;
              levels := replicate (Z.to_nat maxLevels) None;
              MaxNeighbors := maxNeighbors;
              MaxLevels := maxLevels |}.

(** [for level > 0 && rand.Float64() < 0.5 { level--;
    hnsw.addNodeToLevel(node, level) }], with [level] the natural number
    [n]; returns the index and the level at which the loop stopped. *)
Fixpoint promote (o : oracle) (node : loc) (n : nat) (hnsw : HNSW)
  : outcome (HNSW * Z) :=
  match n with
  | O => Ret (hnsw, 0)
  | S n' =>
      if flip o (Z.of_nat n) then
        hnsw' ← addNodeToLevel o node (Z.of_nat n') hnsw;
        promote o node n' hnsw'
      else Ret (hnsw, Z.of_nat n)
  end.

(** [AddVector], returning also the shallowest level the node reached. *)
Definition AddVector_at (o : oracle) (id : string) (vector : Vector.t) (hnsw : HNSW)
  : outcome (HNSW * Z) :=
  (* node := &HNSWNode{ID: id, Vector: vector} *)
  let node := length (heap hnsw) in
  let hnsw0 :=
    with_heap (heap hnsw ++ [{| HNSWNode.ID := id; HNSWNode.Neighbors := [];
                               HNSWNode.Vector := vector |}]) hnsw in
  let level := bottom hnsw in
  hnsw1 ← addNodeToLevel o node level hnsw0;
  '(hnsw2, top) ← promote o node (Z.to_nat level) hnsw1;
  (* hnsw.nodes[id] = node *)
  Ret (with_nodes (<[id := node]> (nodes hnsw2)) hnsw2, top).

Definition AddVector (o : oracle) (id : string) (vector : Vector.t) (hnsw : HNSW)
  : outcome HNSW :=
  fst <$> AddVector_at o id vector hnsw.

(** A Go [error]: [nil] is [None]. *)
Definition error := option string.

(** [delete(m, id)]; on a [nil] map it does nothing. *)
Definition delete_key (id : string) (m : option (gmap string loc))
  : option (gmap string loc) :=
  match m with
  | Some t => Some (delete id t)
  | None => None
  end.

(** [for i := 0; i < hnsw.MaxLevels; i++ { delete(hnsw.levels[i], id) }] *)
Definition delete_levels (id : string) (hnsw : HNSW) : outcome HNSW :=
  for_range
    (fun i hnsw =>
       m ← index (levels hnsw) i;
       Ret (with_levels (<[Z.to_nat i := delete_key id m]> (levels hnsw)) hnsw))
    0 (Z.to_nat (MaxLevels hnsw)) hnsw.

Definition DeleteVector (id : string) (hnsw : HNSW) : outcome (HNSW * error) :=
  hnsw1 ← delete_levels id hnsw;
  Ret (with_nodes (delete id (nodes hnsw1)) hnsw1, (None : error)).

Definition not_found (id : string) : string :=
  ("vector with id " +:+ id +:+ " not found")%string.

Definition UpdateVector (o : oracle) (id : string) (newVector : Vector.t) (hnsw : HNSW)
  : outcome (HNSW * error) :=
  match nodes hnsw !! id with
  | None => Ret (hnsw, Some (not_found id))
  | Some _ =>
      '(hnsw1, _) ← DeleteVector id hnsw;
      hnsw2 ← AddVector o id newVector hnsw1;
      Ret (hnsw2, (None : error))
  end.

(** The body of [for _, node := range hnsw.levels[level]] in
    [NearestNeighbors]. *)
Fixpoint NearestNeighbors_scan (h : list HNSWNode.t) (query : Vector.t)
    (entries : list (string * loc)) (candidates : list string)
    (distances : list float) : outcome (list string * list float) :=
  match entries with
  | [] => Ret (candidates, distances)
  | (_, node) :: entries' =>
      n ← deref h node;
      dist ← euclideanDistance query (HNSWNode.Vector n);
      NearestNeighbors_scan h query entries' (candidates ++ [HNSWNode.ID n])
                            (distances ++ [dist])
  end.

(** The body of [for i := 0; i < k && i < len(candidates); i++]:
    [node := hnsw.nodes[candidates[i]]], then the two appends. *)
Definition NearestNeighbors_take (hnsw : HNSW) (candidates : list string)
    (distances : list float) (i : Z) (best : list Vector.t * list float)
  : outcome (list Vector.t * list float) :=
  let '(bestNeighbors, bestDistances) := best in
  c ← index candidates i;
  node ← deref_key hnsw c;
  d ← index distances i;
  Ret (bestNeighbors ++ [HNSWNode.Vector node], bestDistances ++ [d]).

(** One turn of [for level := hnsw.MaxLevels - 1; level >= 0; level--]. *)
Definition NearestNeighbors_level (o : oracle) (hnsw : HNSW) (query : Vector.t) (k : Z)
    (level : Z) (best : list Vector.t * list float)
  : outcome (list Vector.t * list float) :=
  m ← index (levels hnsw) level;
  '(candidates, distances) ←
    NearestNeighbors_scan (heap hnsw) query (range_map o level m) [] [];
  candidates ← SliceStable (λ _, less_distances distances) candidates;
  for_range (NearestNeighbors_take hnsw candidates distances)
            0 (Z.to_nat (Z.min k (Z.of_nat (length candidates)))) best.

Definition NearestNeighbors (o : oracle) (hnsw : HNSW) (query : Vector.t) (k : Z)
  : outcome (list Vector.t) :=
  '(bestNeighbors, _) ←
    for_down (NearestNeighbors_level o hnsw query k)
             (bottom hnsw) (Z.to_nat (bottom hnsw + 1)) ([], []);
  if Z.of_nat (length bestNeighbors) >? k then slice_to bestNeighbors k
  else Ret bestNeighbors.

(** ** Reasoning about outcomes *)

Lemma bind_Ret {A B} (m : outcome A) (f : A → outcome B) (b : B) :
  m ≫= f = Ret b → ∃ a, m = Ret a ∧ f a = Ret b.
Proof. destruct m as [a|e]; [by exists a|done]. Qed.

Lemma fmap_Ret {A B} (f : A → B) (m : outcome A) (b : B) :
  f <$> m = Ret b → ∃ a, m = Ret a ∧ b = f a.
Proof. destruct m as [a|e]; [|done]. intros [= <-]. by exists a. Qed.

(** [m] ends as the Go code does, with a result or a panic of the Go
    run time: the model did not run out of fuel. *)
Definition finishes {A} (m : outcome A) : Prop := m ≠ Panic FuelExhausted.

Lemma finishes_Ret {A} (a : A) : finishes (Ret a).
Proof. done. Qed.

Lemma finishes_returns {A} (m : outcome A) : returns m → finishes m.
Proof. by intros [a ->]. Qed.

Lemma finishes_bind {A B} (m : outcome A) (f : A → outcome B) :
  finishes m → (∀ a, m = Ret a → finishes (f a)) → finishes (m ≫= f).
Proof.
  destruct m as [a|e]; intros Hm Hf; [by apply Hf|].
  intros [= ->]. by apply Hm.
Qed.

Lemma finishes_index {A} (s : list A) (i : Z) : finishes (index s i).
Proof. unfold index. by repeat case_match. Qed.

Lemma finishes_deref h p : finishes (deref h p).
Proof. unfold deref. by case_match. Qed.

Lemma finishes_deref_key hnsw id : finishes (deref_key hnsw id).
Proof. unfold deref_key. case_match; [apply finishes_deref|done]. Qed.

Lemma finishes_slice_to {A} (s : list A) (k : Z) : finishes (slice_to s k).
Proof. unfold slice_to. by case_match. Qed.

Lemma finishes_for_range {St} (body : Z → St → outcome St) lo n s :
  (∀ i s', finishes (body i s')) → finishes (for_range body lo n s).
Proof.
  intros Hbody. revert lo s. induction n as [|n IH]; intros lo s; simpl; [done|].
  apply finishes_bind; [apply Hbody|]. intros. apply IH.
Qed.

Lemma finishes_for_down {St} (body : Z → St → outcome St) hi n s :
  (∀ i s', finishes (body i s')) → finishes (for_down body hi n s).
Proof.
  intros Hbody. revert hi s. induction n as [|n IH]; intros hi s; simpl; [done|].
  apply finishes_bind; [apply Hbody|]. intros. apply IH.
Qed.

(** ** [euclideanDistance]: when it returns and when it fails *)

Lemma sum_squares_returns v1 v2 sum :
  (length v1 ≤ length v2)%nat → returns (sum_squares v1 v2 sum).
Proof.
  revert v2 sum. induction v1 as [|x v1 IH]; intros [|y v2] sum Hlen; simpl in *;
    try by eexists.
  - lia.
  - apply IH. lia.
Qed.

Lemma sum_squares_panics v1 v2 sum :
  (length v2 < length v1)%nat → sum_squares v1 v2 sum = Panic IndexOutOfRange.
Proof.
  revert v2 sum. induction v1 as [|x v1 IH]; intros [|y v2] sum Hlen; simpl in *;
    try done; try lia.
  apply IH. lia.
Qed.

Lemma euclideanDistance_returns v1 v2 :
  (length (Vector.Values v1) ≤ length (Vector.Values v2))%nat →
  returns (euclideanDistance v1 v2).
Proof.
  intros Hlen. unfold euclideanDistance.
  destruct (sum_squares_returns _ _ 0%float Hlen) as [s ->]. by eexists.
Qed.

Lemma euclideanDistance_panics v1 v2 :
  (length (Vector.Values v2) < length (Vector.Values v1))%nat →
  euclideanDistance v1 v2 = Panic IndexOutOfRange.
Proof.
  intros Hlen. unfold euclideanDistance. by rewrite sum_squares_panics.
Qed.

Lemma finishes_euclideanDistance v1 v2 : finishes (euclideanDistance v1 v2).
Proof.
  destruct (decide (length (Vector.Values v1) ≤ length (Vector.Values v2))%nat).
  - by apply finishes_returns, euclideanDistance_returns.
  - rewrite euclideanDistance_panics; [done|lia].
Qed.

(** ** The sort as the engine calls it

    Both callers build [distances] and the slice to sort side by side, so
    the closure is defined on every index of the slice. *)

Lemma less_distances_returns distances i j :
  0 ≤ i < Z.of_nat (length distances) → 0 ≤ j < Z.of_nat (length distances) →
  returns (less_distances distances i j).
Proof.
  intros Hi Hj. unfold less_distances.
  destruct (index_Ret distances i Hi) as (di & -> & _).
  destruct (index_Ret distances j Hj) as (dj & -> & _). by eexists.
Qed.

Lemma SliceStable_distances {A} (distances : list float) (x : list A) :
  length x = length distances →
  ∃ x', SliceStable (λ _, less_distances distances) x = Ret x' ∧ x' ≡ₚ x.
Proof.
  intros Hlen. apply SliceStable_returns. intros _ i j _ Hi Hj.
  apply less_distances_returns; lia.
Qed.

(** ** [findNeighbors] *)

Lemma deref_Some h p n : h !! p = Some n → deref h p = Ret n.
Proof. unfold deref. by intros ->. Qed.

Lemma deref_Ret h p n : deref h p = Ret n → h !! p = Some n.
Proof. unfold deref. case_match; [by intros [= ->]|done]. Qed.

Lemma findNeighbors_scan_Ret h node entries nb0 ds0 nb ds :
  findNeighbors_scan h node entries nb0 ds0 = Ret (nb, ds) →
  ∃ rest, nb = nb0 ++ rest ∧ length ds = (length ds0 + length rest)%nat ∧
          rest ⊆ entries.*1 ∧ ∀ n, h !! node = Some n → HNSWNode.ID n ∉ rest.
Proof.
  revert nb0 ds0. induction entries as [|[id q] entries IH]; intros nb0 ds0 Hscan.
  - injection Hscan as <- <-. exists []. rewrite app_nil_r. split_and!; [done|simpl; lia|done|].
    intros n _. apply not_elem_of_nil.
  - cbn [findNeighbors_scan] in Hscan.
    apply bind_Ret in Hscan as (n & Hnode%deref_Ret & Hscan).
    destruct (decide (HNSWNode.ID n = id)) as [Heq|Hne].
    + destruct (IH _ _ Hscan) as (rest & -> & Hlen & Hsub & Hself).
      exists rest. split_and!; [done|done| |done].
      intros x Hx. right. by apply Hsub.
    + apply bind_Ret in Hscan as (other & _ & Hscan).
      apply bind_Ret in Hscan as (dist & _ & Hscan).
      destruct (IH _ _ Hscan) as (rest & -> & Hlen & Hsub & Hself).
      exists (id :: rest). rewrite <-app_assoc. split_and!.
      * done.
      * rewrite Hlen, length_app. simpl. lia.
      * intros x [->|Hx]%elem_of_cons; [by left|right; by apply Hsub].
      * intros n' Hn'. simplify_eq. apply not_elem_of_cons. split; [done|by apply Hself].
Qed.

Lemma findNeighbors_scan_returns h node n entries nb0 ds0 :
  h !! node = Some n →
  (∀ id q, (id, q) ∈ entries → id ≠ HNSWNode.ID n →
     ∃ other, h !! q = Some other ∧
       (length (Vector.Values (HNSWNode.Vector n))
        ≤ length (Vector.Values (HNSWNode.Vector other)))%nat) →
  returns (findNeighbors_scan h node entries nb0 ds0).
Proof.
  intros Hnode. revert nb0 ds0.
  induction entries as [|[id q] entries IH]; intros nb0 ds0 Hentries.
  - by eexists.
  - cbn [findNeighbors_scan]. rewrite (deref_Some _ _ _ Hnode). simpl.
    destruct (decide (HNSWNode.ID n = id)) as [Heq|Hne].
    + apply IH. intros id' q' Hin Hne'. apply (Hentries id' q'); [by right|done].
    + destruct (Hentries id q) as (other & Hother & Hlen); [by left|done|].
      rewrite (deref_Some _ _ _ Hother). simpl.
      destruct (euclideanDistance_returns _ _ Hlen) as [dist ->]. simpl.
      apply IH. intros id' q' Hin Hne'. apply (Hentries id' q'); [by right|done].
Qed.

Lemma finishes_findNeighbors_scan h node entries nb0 ds0 :
  finishes (findNeighbors_scan h node entries nb0 ds0).
Proof.
  revert nb0 ds0. induction entries as [|[id q] entries IH]; intros nb0 ds0; [done|].
  cbn [findNeighbors_scan]. apply finishes_bind; [apply finishes_deref|].
  intros n _. case_decide; [apply IH|].
  apply finishes_bind; [apply finishes_deref|]. intros other _.
  apply finishes_bind; [apply finishes_euclideanDistance|]. intros dist _. apply IH.
Qed.

(** The truncation to [MaxNeighbors] at the end of [findNeighbors]. *)
Lemma truncate_Ret {A} (s s' : list A) (k : Z) :
  (if Z.of_nat (length s) >? k then slice_to s k else Ret s) = Ret s' →
  Z.of_nat (length s') ≤ k ∧ s' ⊆ s.
Proof.
  rewrite Z.gtb_ltb. destruct (Z.ltb_spec k (Z.of_nat (length s))).
  - unfold slice_to. case_match eqn:Hk; [|done]. intros [= <-].
    apply andb_prop in Hk as [?%Z.leb_le ?%Z.leb_le].
    split; [|apply subseteq_take]. rewrite length_take. lia.
  - intros [= <-]. split; [lia|done].
Qed.

Lemma truncate_returns {A} (s : list A) (k : Z) :
  0 ≤ k → returns (if Z.of_nat (length s) >? k then slice_to s k else Ret s).
Proof.
  intros Hk. rewrite Z.gtb_ltb. destruct (Z.ltb_spec k (Z.of_nat (length s)));
    [|by eexists].
  unfold slice_to. destruct (Z.leb_spec 0 k); [|lia].
  destruct (Z.leb_spec k (Z.of_nat (length s))); [|lia]. by eexists.
Qed.

Lemma findNeighbors_Ret o hnsw node level neighbors :
  findNeighbors o hnsw node level = Ret neighbors →
  Z.of_nat (length neighbors) ≤ MaxNeighbors hnsw ∧
  ∀ n, heap hnsw !! node = Some n → HNSWNode.ID n ∉ neighbors.
Proof.
  unfold findNeighbors. intros Hfind.
  apply bind_Ret in Hfind as (m & _ & Hfind).
  apply bind_Ret in Hfind as ([nb ds] & Hscan & Hfind).
  apply bind_Ret in Hfind as (sorted & Hsort & Hfind).
  apply findNeighbors_scan_Ret in Hscan as (rest & Hnb & Hlen & _ & Hself).
  simpl in Hnb. subst nb.
  destruct (SliceStable_distances ds rest) as (sorted' & Hsort' & Hperm); [done|].
  rewrite Hsort in Hsort'. injection Hsort' as <-.
  apply truncate_Ret in Hfind as [Hk Hsub]. split; [done|].
  intros n Hn Hin. apply (Hself n Hn). apply Hsub in Hin. by rewrite Hperm in Hin.
Qed.

Lemma finishes_findNeighbors o hnsw node level :
  finishes (findNeighbors o hnsw node level).
Proof.
  unfold findNeighbors. apply finishes_bind; [apply finishes_index|]. intros m _.
  apply finishes_bind; [apply finishes_findNeighbors_scan|]. intros [nb ds] Hscan.
  apply findNeighbors_scan_Ret in Hscan as (rest & Hnb & Hlen & _).
  simpl in Hnb. subst nb.
  destruct (SliceStable_distances ds rest) as (sorted & -> & _); [done|].
  simpl. case_match; [apply finishes_slice_to|done].
Qed.

(** The fields of a node that [findNeighbors] reads: all but [Neighbors]. *)
Definition node_key (n : HNSWNode.t) : string * Vector.t :=
  (HNSWNode.ID n, HNSWNode.Vector n).

Definition similar (h h' : list HNSWNode.t) : Prop :=
  ∀ p, node_key <$> h !! p = node_key <$> h' !! p.

Lemma similar_deref h h' p :
  similar h h' →
  match deref h p, deref h' p with
  | Ret n, Ret n' => node_key n = node_key n'
  | Panic e, Panic e' => e = e'
  | _, _ => False
  end.
Proof.
  intros Hsim. specialize (Hsim p). unfold deref.
  destruct (h !! p), (h' !! p); simpl in *; try done; congruence.
Qed.

Lemma findNeighbors_scan_similar h h' node entries nb0 ds0 :
  similar h h' →
  findNeighbors_scan h node entries nb0 ds0 = findNeighbors_scan h' node entries nb0 ds0.
Proof.
  intros Hsim. revert nb0 ds0.
  induction entries as [|[id q] entries IH]; intros nb0 ds0; [done|].
  cbn [findNeighbors_scan].
  pose proof (similar_deref h h' node Hsim) as Hnode.
  destruct (deref h node) as [n|e], (deref h' node) as [n'|e']; try done;
    [|by subst]. simpl.
  injection Hnode as HID HV. rewrite HID, HV.
  case_decide; [apply IH|].
  pose proof (similar_deref h h' q Hsim) as Hq.
  destruct (deref h q) as [x|e], (deref h' q) as [x'|e']; try done; [|by subst].
  simpl. injection Hq as _ ->.
  destruct (euclideanDistance _ _); [|done]. simpl. apply IH.
Qed.

Lemma findNeighbors_similar o hnsw hnsw' node level :
  similar (heap hnsw) (heap hnsw') → levels hnsw = levels hnsw' →
  MaxNeighbors hnsw = MaxNeighbors hnsw' →
  findNeighbors o hnsw node level = findNeighbors o hnsw' node level.
Proof.
  intros Hsim Hlev Hmax. unfold findNeighbors. rewrite Hlev, Hmax.
  destruct (index (levels hnsw') level) as [m|]; [|done]. simpl.
  by rewrite (findNeighbors_scan_similar _ _ _ _ _ _ Hsim).
Qed.

(** ** Invariants of the index *)

(** What every operation that completes preserves: the slice of levels
    has [MaxLevels] entries; every pointer in a level table or in the flat
    table is to a node whose [ID] is the key it is stored under; every
    node's [Neighbors] has at most [MaxNeighbors] entries, none of them
    the node's own [ID]; and the slice of levels is one that [make] can
    have built. *)
Record inv (hnsw : HNSW) : Prop := {
  inv_levels : Z.of_nat (length (levels hnsw)) = MaxLevels hnsw;
  inv_level_nodes : ∀ (L : nat) m id p,
    levels hnsw !! L = Some (Some m) → m !! id = Some p →
    ∃ n, heap hnsw !! p = Some n ∧ HNSWNode.ID n = id;
  inv_nodes : ∀ id p,
    nodes hnsw !! id = Some p → ∃ n, heap hnsw !! p = Some n ∧ HNSWNode.ID n = id;
  inv_neighbors : ∀ p n,
    heap hnsw !! p = Some n →
    Z.of_nat (length (HNSWNode.Neighbors n)) ≤ MaxNeighbors hnsw ∧
    HNSWNode.ID n ∉ HNSWNode.Neighbors n;
  inv_size : MaxLevels hnsw ≤ max_slice_len
}.

Lemma wrap_id (z : Z) : - 2 ^ 63 ≤ z < 2 ^ 63 → wrap z = z.
Proof. intros Hz. unfold wrap. rewrite Z.mod_small; lia. Qed.

Lemma bottom_eq hnsw :
  Z.of_nat (length (levels hnsw)) = MaxLevels hnsw → MaxLevels hnsw ≤ max_slice_len →
  bottom hnsw = MaxLevels hnsw - 1.
Proof. intros Hlen Hsz. unfold bottom, max_slice_len in *. apply wrap_id. lia. Qed.

Lemma bottom_inv hnsw : inv hnsw → bottom hnsw = MaxLevels hnsw - 1.
Proof. intros Hinv. apply bottom_eq; apply Hinv. Qed.

(** Every key of every level table lies in [K]. *)
Definition level_keys_in (K : gset string) (hnsw : HNSW) : Prop :=
  ∀ (L : nat) m id, levels hnsw !! L = Some (Some m) → is_Some (m !! id) → id ∈ K.

(** Every key of a level table is a key of the flat table. *)
Definition levels_in_nodes (hnsw : HNSW) : Prop :=
  level_keys_in (dom (nodes hnsw)) hnsw.

(** Every vector stored in a level table has at least as many values as
    [v]: the distance from [v] to it is defined. *)
Definition fits (v : Vector.t) (hnsw : HNSW) : Prop :=
  ∀ (L : nat) m id p n,
    levels hnsw !! L = Some (Some m) → m !! id = Some p → heap hnsw !! p = Some n →
    (length (Vector.Values v) ≤ length (Vector.Values (HNSWNode.Vector n)))%nat.

Lemma elem_of_range_map o level m id q :
  fair o → (id, q) ∈ range_map o level m ↔ default ∅ m !! id = Some q.
Proof.
  intros Hfair. unfold range_map. rewrite (Hfair level _). apply elem_of_map_to_list.
Qed.

Lemma range_map_nil o level : fair o → range_map o level None = [].
Proof.
  intros Hfair. unfold range_map. simpl. rewrite map_to_list_empty.
  apply Permutation_nil_r, Hfair.
Qed.

Lemma range_map_empty o level : fair o → range_map o level (Some ∅) = [].
Proof.
  intros Hfair. unfold range_map. simpl. rewrite map_to_list_empty.
  apply Permutation_nil_r, Hfair.
Qed.

(** ** [addNodeToLevel] *)

Lemma addNodeToLevel_Ret o p level hnsw hnsw' :
  addNodeToLevel o p level hnsw = Ret hnsw' →
  ∃ m n neighbors,
    0 ≤ level ∧ levels hnsw !! Z.to_nat level = Some m ∧ heap hnsw !! p = Some n ∧
    findNeighbors o
      (with_levels (<[Z.to_nat level := Some (<[HNSWNode.ID n := p]> (default ∅ m))]>
                      (levels hnsw)) hnsw) p level = Ret neighbors ∧
    hnsw' =
      {| heap := <[p := HNSWNode.with_Neighbors neighbors n]> (heap hnsw);
         nodes := nodes hnsw;
         levels := <[Z.to_nat level := Some (<[HNSWNode.ID n := p]> (default ∅ m))]>
                     (levels hnsw);
         MaxNeighbors := MaxNeighbors hnsw;
         MaxLevels := MaxLevels hnsw |}.
Proof.
  unfold addNodeToLevel. intros Hadd.
  apply bind_Ret in Hadd as (m & [Hlevel Hm]%index_Ret_inv & Hadd).
  apply bind_Ret in Hadd as (n & Hn%deref_Ret & Hadd).
  apply bind_Ret in Hadd as (neighbors & Hfind & Hadd).
  injection Hadd as <-. exists m, n, neighbors. split_and!; [lia|done..].
Qed.

Lemma lookup_insert_ID (h : list HNSWNode.t) p n neighbors q id :
  h !! p = Some n →
  (∃ x, h !! q = Some x ∧ HNSWNode.ID x = id) →
  ∃ x, <[p := HNSWNode.with_Neighbors neighbors n]> h !! q = Some x ∧ HNSWNode.ID x = id.
Proof.
  intros Hp (x & Hq & Hid). destruct (decide (p = q)) as [->|Hne].
  - rewrite list_lookup_insert_eq by (by eapply lookup_lt_Some). simplify_eq.
    by eexists.
  - rewrite list_lookup_insert_ne by done. by exists x.
Qed.

Lemma similar_insert (h : list HNSWNode.t) p n neighbors :
  h !! p = Some n → similar h (<[p := HNSWNode.with_Neighbors neighbors n]> h).
Proof.
  intros Hp q. destruct (decide (p = q)) as [->|Hne].
  - rewrite list_lookup_insert_eq by (by eapply lookup_lt_Some). by rewrite Hp.
  - by rewrite list_lookup_insert_ne.
Qed.

Lemma addNodeToLevel_inv o p level hnsw hnsw' :
  inv hnsw → addNodeToLevel o p level hnsw = Ret hnsw' → inv hnsw'.
Proof.
  intros [Hlen Hlev Hnodes Hnb Hsz] Hadd.
  apply addNodeToLevel_Ret in Hadd as (m & n & nbs & Hlevel & Hm & Hn & Hfind & ->).
  apply findNeighbors_Ret in Hfind as [Hk Hself]. simpl in Hk, Hself.
  split; simpl.
  - by rewrite length_insert.
  - intros L m' id q HL Hq. apply lookup_insert_ID; [done|].
    apply list_lookup_insert_Some in HL as [(<- & [= <-] & _)|[_ HL]].
    + apply lookup_insert_Some in Hq as [[<- <-]|[_ Hq]]; [by exists n|].
      destruct m as [m|]; simpl in Hq; [by eapply Hlev|done].
    + by eapply Hlev.
  - intros id q Hq. apply lookup_insert_ID; [done|]. by apply Hnodes.
  - intros q x Hq. destruct (decide (p = q)) as [->|Hne].
    + rewrite list_lookup_insert_eq in Hq by (by eapply lookup_lt_Some).
      injection Hq as <-. simpl. split; [done|]. by apply Hself.
    + rewrite list_lookup_insert_ne in Hq by done. by apply (Hnb q).
  - done.
Qed.

Lemma addNodeToLevel_keys o p level hnsw hnsw' K n :
  level_keys_in K hnsw → heap hnsw !! p = Some n → HNSWNode.ID n ∈ K →
  addNodeToLevel o p level hnsw = Ret hnsw' → level_keys_in K hnsw'.
Proof.
  intros Hkeys Hp HK Hadd.
  apply addNodeToLevel_Ret in Hadd as (m & n' & nbs & Hlevel & Hm & Hn & Hfind & ->).
  simplify_eq. intros L m' id HL Hid. simpl in HL.
  apply list_lookup_insert_Some in HL as [(<- & [= <-] & _)|[_ HL]].
  - apply lookup_insert_is_Some in Hid as [<-|[_ Hid]]; [done|].
    destruct m as [m|]; simpl in Hid; [by eapply Hkeys|].
    rewrite lookup_empty in Hid. by destruct Hid.
  - by eapply Hkeys.
Qed.

Lemma addNodeToLevel_fits o p level hnsw hnsw' v n :
  fits v hnsw → heap hnsw !! p = Some n →
  (length (Vector.Values v) ≤ length (Vector.Values (HNSWNode.Vector n)))%nat →
  addNodeToLevel o p level hnsw = Ret hnsw' → fits v hnsw'.
Proof.
  intros Hfits Hp Hv Hadd.
  apply addNodeToLevel_Ret in Hadd as (m & n' & nbs & Hlevel & Hm & Hn & Hfind & ->).
  simplify_eq. intros L m' id q x HL Hq Hx. simpl in HL, Hx.
  destruct (decide (p = q)) as [->|Hne].
  { rewrite list_lookup_insert_eq in Hx by (by eapply lookup_lt_Some).
    by injection Hx as <-. }
  rewrite list_lookup_insert_ne in Hx by done.
  apply list_lookup_insert_Some in HL as [(<- & [= <-] & _)|[_ HL]].
  - apply lookup_insert_Some in Hq as [[_ ?]|[_ Hq]]; [done|].
    destruct m as [m|]; simpl in Hq; [by eapply Hfits|done].
  - by eapply Hfits.
Qed.

Lemma addNodeToLevel_returns o p level hnsw n :
  inv hnsw → fair o → 0 ≤ level < MaxLevels hnsw → 0 ≤ MaxNeighbors hnsw →
  heap hnsw !! p = Some n → fits (HNSWNode.Vector n) hnsw →
  returns (addNodeToLevel o p level hnsw).
Proof.
  intros [Hlen Hlev Hnodes Hnb Hsz] Hfair Hlevel Hmax Hp Hfits. unfold addNodeToLevel.
  destruct (index_Ret (levels hnsw) level) as (m & -> & Hm); [lia|]. simpl.
  rewrite (deref_Some _ _ _ Hp). simpl.
  unfold findNeighbors. simpl.
  destruct (index_Ret (<[Z.to_nat level := Some (<[HNSWNode.ID n := p]> (default ∅ m))]>
                         (levels hnsw)) level) as (m1 & -> & Hm1).
  { rewrite length_insert. lia. }
  rewrite list_lookup_insert_eq in Hm1 by (by eapply lookup_lt_Some).
  injection Hm1 as <-. simpl.
  destruct (findNeighbors_scan_returns (heap hnsw) p n
              (range_map o level (Some (<[HNSWNode.ID n := p]> (default ∅ m)))) [] [] Hp)
    as [[nb ds] Hscan].
  { intros id q Hin Hne. apply elem_of_range_map in Hin; [|done]. simpl in Hin.
    rewrite lookup_insert_ne in Hin by done.
    destruct m as [m|]; simpl in Hin; [|done].
    destruct (Hlev _ _ _ _ Hm Hin) as (other & Hother & _).
    exists other. split; [done|]. by eapply Hfits. }
  rewrite Hscan. simpl.
  apply findNeighbors_scan_Ret in Hscan as (rest & Hrest & Hlen' & _).
  simpl in Hrest. subst nb.
  destruct (SliceStable_distances ds rest) as (sorted & -> & _); [done|]. simpl.
  destruct (truncate_returns sorted (MaxNeighbors hnsw) Hmax) as [nbs ->].
  by eexists.
Qed.

Lemma finishes_addNodeToLevel o p level hnsw : finishes (addNodeToLevel o p level hnsw).
Proof.
  unfold addNodeToLevel. apply finishes_bind; [apply finishes_index|]. intros m _.
  apply finishes_bind; [apply finishes_deref|]. intros n _.
  apply finishes_bind; [apply finishes_findNeighbors|]. done.
Qed.

(** What [addNodeToLevel] changes: the table of [level] gets the node under
    its [ID], the node gets the neighbors selected at [level]; nothing else
    moves. *)
Lemma addNodeToLevel_frame o p level hnsw hnsw' n :
  addNodeToLevel o p level hnsw = Ret hnsw' → heap hnsw !! p = Some n →
  nodes hnsw' = nodes hnsw ∧ MaxNeighbors hnsw' = MaxNeighbors hnsw ∧
  MaxLevels hnsw' = MaxLevels hnsw ∧ length (levels hnsw') = length (levels hnsw) ∧
  similar (heap hnsw) (heap hnsw') ∧
  0 ≤ level < Z.of_nat (length (levels hnsw)) ∧
  (∀ L : nat, L ≠ Z.to_nat level → levels hnsw' !! L = levels hnsw !! L) ∧
  (∃ m', levels hnsw' !! Z.to_nat level = Some (Some m') ∧
         m' !! HNSWNode.ID n = Some p) ∧
  (∃ n', heap hnsw' !! p = Some n' ∧ node_key n' = node_key n ∧
         findNeighbors o hnsw' p level = Ret (HNSWNode.Neighbors n')).
Proof.
  intros Hadd Hp.
  apply addNodeToLevel_Ret in Hadd as (m & n' & nbs & Hlevel & Hm & Hn & Hfind & ->).
  pose proof (lookup_lt_Some _ _ _ Hm) as Hlt.
  pose proof (lookup_lt_Some _ _ _ Hp) as Hplt.
  assert (n' = n) as -> by congruence. simpl.
  split_and!; try done.
  - by rewrite length_insert.
  - by apply similar_insert.
  - lia.
  - intros L HL. by rewrite list_lookup_insert_ne.
  - eexists. rewrite list_lookup_insert_eq by done. split; [done|].
    by rewrite lookup_insert_eq.
  - eexists. rewrite list_lookup_insert_eq by done. split; [done|].
    split; [done|]. simpl. rewrite <-Hfind.
    symmetry. apply findNeighbors_similar; [|done..]. by apply similar_insert.
Qed.

(** ** [AddVector] *)

Lemma similar_trans h1 h2 h3 : similar h1 h2 → similar h2 h3 → similar h1 h3.
Proof. intros H12 H23 p. by rewrite H12. Qed.

(** The promotion loop, started with the node just placed at level [k]:
    it stops at a level [top], the node object [p] sits in the table of
    every level from [top] to [k], and its [Neighbors] are those selected
    at [top]. *)
Lemma promote_Ret o p (k : nat) hnsw hnsw' top n :
  promote o p k hnsw = Ret (hnsw', top) →
  heap hnsw !! p = Some n →
  findNeighbors o hnsw p (Z.of_nat k) = Ret (HNSWNode.Neighbors n) →
  0 ≤ top ≤ Z.of_nat k ∧ (flip o (Z.of_nat k) = false → top = Z.of_nat k) ∧
  (flip o (Z.of_nat k) = true → 0 < Z.of_nat k → top < Z.of_nat k) ∧
  nodes hnsw' = nodes hnsw ∧ MaxNeighbors hnsw' = MaxNeighbors hnsw ∧
  MaxLevels hnsw' = MaxLevels hnsw ∧ length (levels hnsw') = length (levels hnsw) ∧
  similar (heap hnsw) (heap hnsw') ∧
  (∀ L : nat, (k ≤ L)%nat → levels hnsw' !! L = levels hnsw !! L) ∧
  (∀ L : nat, top ≤ Z.of_nat L → (L < k)%nat →
     ∃ m', levels hnsw' !! L = Some (Some m') ∧ m' !! HNSWNode.ID n = Some p) ∧
  (∃ n', heap hnsw' !! p = Some n' ∧ node_key n' = node_key n ∧
         findNeighbors o hnsw' p top = Ret (HNSWNode.Neighbors n')).
Proof.
  revert hnsw n. induction k as [|k IH]; intros hnsw n Hpromote Hp Hfind.
  - injection Hpromote as <- <-. split_and!; try done; try lia.
    by exists n.
  - cbn [promote] in Hpromote. destruct (flip o (Z.of_nat (S k))) eqn:Hflip.
    + apply bind_Ret in Hpromote as (hnsw1 & Hadd & Hpromote).
      destruct (addNodeToLevel_frame _ _ _ _ _ _ Hadd Hp)
        as (Hn1 & Hmn1 & Hml1 & Hlen1 & Hsim1 & Hk & Hother & (m1 & Hm1 & Hid1) &
            (n1 & Hp1 & Hkey1 & Hfind1)).
      rewrite Nat2Z.id in Hother, Hm1.
      destruct (IH _ _ Hpromote Hp1 Hfind1)
        as (Htop & _ & _ & Hn2 & Hmn2 & Hml2 & Hlen2 & Hsim2 & Hup & Hdown &
            (n2 & Hp2 & Hkey2 & Hfind2)).
      injection Hkey1 as HID1 HV1.
      split_and!; try congruence; try lia.
      * intros L HL. rewrite Hup by lia. apply Hother. lia.
      * intros L Hlo Hhi. destruct (decide (L = k)) as [->|Hne].
        -- exists m1. by rewrite Hup by lia.
        -- rewrite <-HID1. apply Hdown; lia.
      * exists n2. split; [done|]. split; [|done].
        rewrite Hkey2. unfold node_key. congruence.
    + injection Hpromote as <- <-. split_and!; try done; try lia.
      by exists n.
Qed.

Lemma promote_inv o p (k : nat) hnsw hnsw' top K n :
  promote o p k hnsw = Ret (hnsw', top) →
  heap hnsw !! p = Some n → HNSWNode.ID n ∈ K →
  inv hnsw → level_keys_in K hnsw → inv hnsw' ∧ level_keys_in K hnsw'.
Proof.
  revert hnsw n. induction k as [|k IH]; intros hnsw n Hpromote Hp HK Hinv Hkeys.
  - by injection Hpromote as <- <-.
  - cbn [promote] in Hpromote. destruct (flip o (Z.of_nat (S k))).
    + apply bind_Ret in Hpromote as (hnsw1 & Hadd & Hpromote).
      destruct (addNodeToLevel_frame _ _ _ _ _ _ Hadd Hp)
        as (_ & _ & _ & _ & _ & _ & _ & _ & (n1 & Hp1 & [= HID1 _] & _)).
      eapply (IH hnsw1 n1); [done..|by rewrite HID1| |].
      * by eapply addNodeToLevel_inv.
      * by eapply addNodeToLevel_keys.
    + by injection Hpromote as <- <-.
Qed.

Lemma promote_returns o p (k : nat) hnsw n :
  inv hnsw → fair o → Z.of_nat k < MaxLevels hnsw → 0 ≤ MaxNeighbors hnsw →
  heap hnsw !! p = Some n → fits (HNSWNode.Vector n) hnsw →
  returns (promote o p k hnsw).
Proof.
  intros Hinv Hfair. revert hnsw n Hinv.
  induction k as [|k IH]; intros hnsw n Hinv Hk Hmax Hp Hfits; [by eexists|].
  cbn [promote]. destruct (flip o (Z.of_nat (S k))); [|by eexists].
  destruct (addNodeToLevel_returns o p (Z.of_nat k) hnsw n) as [hnsw1 Hadd];
    [done|done|lia|done..|].
  rewrite Hadd. simpl.
  destruct (addNodeToLevel_frame _ _ _ _ _ _ Hadd Hp)
    as (_ & Hmn1 & Hml1 & _ & _ & _ & _ & _ & (n1 & Hp1 & [= _ HV1] & _)).
  apply (IH hnsw1 n1).
  - by eapply addNodeToLevel_inv.
  - lia.
  - lia.
  - done.
  - rewrite HV1. by eapply addNodeToLevel_fits.
Qed.

Lemma finishes_promote o p k hnsw : finishes (promote o p k hnsw).
Proof.
  revert hnsw. induction k as [|k IH]; intros hnsw; [done|].
  cbn [promote]. case_match; [|done].
  apply finishes_bind; [apply finishes_addNodeToLevel|]. intros. apply IH.
Qed.

(** The index right after [node := &HNSWNode{ID: id, Vector: vector}]. *)
Lemma alloc_inv id v hnsw :
  inv hnsw → 0 ≤ MaxNeighbors hnsw →
  inv (with_heap (heap hnsw ++ [{| HNSWNode.ID := id; HNSWNode.Neighbors := [];
                                  HNSWNode.Vector := v |}]) hnsw).
Proof.
  intros [Hlen Hlev Hnodes Hnb Hsz] Hmax. split; simpl; [done|..].
  - intros L m k q HL Hq. destruct (Hlev _ _ _ _ HL Hq) as (n & Hn & Hid).
    exists n. split; [|done]. by apply lookup_app_l_Some.
  - intros k q Hq. destruct (Hnodes _ _ Hq) as (n & Hn & Hid).
    exists n. split; [|done]. by apply lookup_app_l_Some.
  - intros q n [Hq|[_ Hq]]%lookup_app_Some; [by apply (Hnb q)|].
    apply list_lookup_singleton_Some in Hq as [_ <-]. simpl.
    split; [lia|apply not_elem_of_nil].
  - done.
Qed.

Lemma alloc_fits id v w hnsw :
  inv hnsw → fits w hnsw →
  fits w (with_heap (heap hnsw ++ [{| HNSWNode.ID := id; HNSWNode.Neighbors := [];
                                     HNSWNode.Vector := v |}]) hnsw).
Proof.
  intros [_ Hlev _ _ _] Hfits L m k q n HL Hq Hn. simpl in *.
  destruct (Hlev _ _ _ _ HL Hq) as (n' & Hn' & _).
  rewrite (lookup_app_l_Some _ _ _ _ Hn') in Hn. injection Hn as <-.
  by eapply Hfits.
Qed.

(** What a completed [AddVector] leaves: one node object, at the fresh
    address [p], is the value of [id] in the flat table and in the table
    of every level from the shallowest one reached, [top], down to the
    bottom level; its [Neighbors] are the ones selected at [top]. *)
Lemma AddVector_at_Ret o id v hnsw hnsw' top :
  AddVector_at o id v hnsw = Ret (hnsw', top) →
  let p := length (heap hnsw) in
  0 ≤ top ≤ bottom hnsw ∧
  (flip o (bottom hnsw) = false → top = bottom hnsw) ∧
  (flip o (bottom hnsw) = true → 0 < bottom hnsw →
     top < bottom hnsw) ∧
  nodes hnsw' = <[id := p]> (nodes hnsw) ∧
  MaxNeighbors hnsw' = MaxNeighbors hnsw ∧ MaxLevels hnsw' = MaxLevels hnsw ∧
  length (levels hnsw') = length (levels hnsw) ∧
  (∀ L : nat, top ≤ Z.of_nat L ≤ bottom hnsw →
     ∃ m', levels hnsw' !! L = Some (Some m') ∧ m' !! id = Some p) ∧
  ∃ n', heap hnsw' !! p = Some n' ∧ HNSWNode.ID n' = id ∧ HNSWNode.Vector n' = v ∧
        findNeighbors o hnsw' p top = Ret (HNSWNode.Neighbors n').
Proof.
  intros Hadd p. unfold AddVector_at in Hadd.
  apply bind_Ret in Hadd as (hnsw1 & Hadd1 & Hadd).
  apply bind_Ret in Hadd as ([hnsw2 top'] & Hpromote & Hadd).
  injection Hadd as <- <-.
  set (node0 := {| HNSWNode.ID := id; HNSWNode.Neighbors := []; HNSWNode.Vector := v |})
    in *.
  assert (heap (with_heap (heap hnsw ++ [node0]) hnsw) !! p = Some node0) as Hp0.
  { simpl. by rewrite list_lookup_middle. }
  destruct (addNodeToLevel_frame _ _ _ _ _ _ Hadd1 Hp0)
    as (Hn1 & Hmn1 & Hml1 & Hlen1 & Hsim1 & Hlevel & Hother & (m1 & Hm1 & Hid1) &
        (n1 & Hp1 & [= HID1 HV1] & Hfind1)).
  simpl in *.
  rewrite <-(Z2Nat.id (bottom hnsw)) in Hfind1 by lia.
  destruct (promote_Ret _ _ _ _ _ _ _ Hpromote Hp1 Hfind1)
    as (Htop & Hflip & Hstrict & Hn2 & Hmn2 & Hml2 & Hlen2 & Hsim2 & Hup & Hdown &
        (n2 & Hp2 & [= HID2 HV2] & Hfind2)).
  rewrite Z2Nat.id in Htop, Hflip, Hstrict by lia.
  subst p. split_and!; try done; try lia.
  - congruence.
  - intros L HL. destruct (decide (L = Z.to_nat (bottom hnsw))) as [->|Hne].
    + exists m1. by rewrite Hup.
    + rewrite <-HID1. apply Hdown; lia.
  - exists n2. split_and!; try congruence.
    rewrite <-Hfind2. apply findNeighbors_similar; done.
Qed.

(** A level insertion that completes had room to truncate: it ran on an
    index whose [MaxNeighbors] is not negative. *)
Lemma addNodeToLevel_MaxNeighbors o p level hnsw hnsw' :
  addNodeToLevel o p level hnsw = Ret hnsw' → 0 ≤ MaxNeighbors hnsw.
Proof.
  intros (m & n & nbs & _ & _ & _ & Hfind & _)%addNodeToLevel_Ret.
  apply findNeighbors_Ret in Hfind as [Hk _]. simpl in Hk. lia.
Qed.

Lemma AddVector_at_inv o id v hnsw hnsw' top :
  inv hnsw → levels_in_nodes hnsw →
  AddVector_at o id v hnsw = Ret (hnsw', top) →
  inv hnsw' ∧ levels_in_nodes hnsw' ∧ 0 ≤ MaxNeighbors hnsw ∧ 1 ≤ MaxLevels hnsw.
Proof.
  intros Hinv Hkeys Hadd.
  pose proof (AddVector_at_Ret _ _ _ _ _ _ Hadd)
    as (Htop & _ & _ & Hnodes' & _ & _ & _ & _ & (n' & Hp' & HID' & _)).
  unfold AddVector_at in Hadd.
  apply bind_Ret in Hadd as (hnsw1 & Hadd1 & Hadd).
  apply bind_Ret in Hadd as ([hnsw2 top'] & Hpromote & Hadd).
  injection Hadd as <- <-.
  pose proof (addNodeToLevel_MaxNeighbors _ _ _ _ _ Hadd1) as Hmax. simpl in Hmax.
  set (node0 := {| HNSWNode.ID := id; HNSWNode.Neighbors := []; HNSWNode.Vector := v |})
    in *.
  set (hnsw0 := with_heap (heap hnsw ++ [node0]) hnsw) in *.
  set (K := {[id]} ∪ dom (nodes hnsw) : gset string).
  assert (heap hnsw0 !! length (heap hnsw) = Some node0) as Hp0.
  { simpl. by rewrite list_lookup_middle. }
  assert (inv hnsw0) as Hinv0 by by apply alloc_inv.
  assert (level_keys_in K hnsw0) as Hkeys0.
  { intros L m k HL Hk. apply elem_of_union_r. by eapply Hkeys. }
  assert (HNSWNode.ID node0 ∈ K) as HK by (apply elem_of_union_l; by apply elem_of_singleton).
  pose proof (addNodeToLevel_inv _ _ _ _ _ Hinv0 Hadd1) as Hinv1.
  pose proof (addNodeToLevel_keys _ _ _ _ _ _ _ Hkeys0 Hp0 HK Hadd1) as Hkeys1.
  destruct (addNodeToLevel_frame _ _ _ _ _ _ Hadd1 Hp0)
    as (_ & _ & _ & _ & _ & _ & _ & _ & (n1 & Hp1 & [= HID1 _] & _)).
  destruct (promote_inv _ _ _ _ _ _ K _ Hpromote Hp1 ltac:(by rewrite HID1) Hinv1 Hkeys1)
    as [[Hlen2 Hlev2 Hnodes2 Hnb2 Hsz2] Hkeys2].
  rewrite (bottom_inv _ Hinv) in Htop.
  split_and!; [| |done|lia].
  - split; simpl in *; [done|done| |done|done].
    intros k q [[<- <-]|[_ Hq]]%lookup_insert_Some; [by exists n'|by apply Hnodes2].
  - unfold levels_in_nodes. simpl in *. rewrite Hnodes', dom_insert_L. done.
Qed.

Lemma AddVector_at_returns o id v hnsw :
  inv hnsw → fair o → 1 ≤ MaxLevels hnsw → 0 ≤ MaxNeighbors hnsw → fits v hnsw →
  returns (AddVector_at o id v hnsw).
Proof.
  intros Hinv Hfair Hml Hmn Hfits. unfold AddVector_at.
  rewrite (bottom_inv _ Hinv).
  set (node0 := {| HNSWNode.ID := id; HNSWNode.Neighbors := []; HNSWNode.Vector := v |}).
  set (hnsw0 := with_heap (heap hnsw ++ [node0]) hnsw).
  assert (heap hnsw0 !! length (heap hnsw) = Some node0) as Hp0.
  { simpl. by rewrite list_lookup_middle. }
  assert (inv hnsw0) as Hinv0 by by apply alloc_inv.
  assert (fits v hnsw0) as Hfits0 by by apply alloc_fits.
  destruct (addNodeToLevel_returns o (length (heap hnsw)) (MaxLevels hnsw - 1) hnsw0 node0)
    as [hnsw1 Hadd1]; [done|done|simpl; lia|done..|].
  rewrite Hadd1. simpl.
  destruct (addNodeToLevel_frame _ _ _ _ _ _ Hadd1 Hp0)
    as (_ & Hmn1 & Hml1 & _ & _ & _ & _ & _ & (n1 & Hp1 & [= _ HV1] & _)).
  destruct (promote_returns o (length (heap hnsw)) (Z.to_nat (MaxLevels hnsw - 1)) hnsw1 n1)
    as [[hnsw2 top] ->].
  - by eapply addNodeToLevel_inv.
  - done.
  - simpl in *. lia.
  - simpl in *. lia.
  - done.
  - rewrite HV1. eapply addNodeToLevel_fits; [exact Hfits0|exact Hp0|done|exact Hadd1].
  - by eexists.
Qed.

Lemma finishes_AddVector o id v hnsw : finishes (AddVector o id v hnsw).
Proof.
  unfold AddVector, AddVector_at.
  match goal with |- finishes (fst <$> ?m) => assert (finishes m) as Hm end.
  { apply finishes_bind; [apply finishes_addNodeToLevel|]. intros hnsw1 _.
    apply finishes_bind; [apply finishes_promote|]. by intros [??] _. }
  intros Heq. apply Hm. revert Heq.
  match goal with |- fst <$> ?m = _ → _ => by destruct m as [|[]] end.
Qed.

(** ** [DeleteVector] *)

Lemma delete_key_idemp id m : delete_key id (delete_key id m) = delete_key id m.
Proof. destruct m as [m|]; simpl; [|done]. by rewrite delete_delete_eq. Qed.

Lemma delete_key_absent id m :
  (∀ t, m = Some t → t !! id = None) → delete_key id m = m.
Proof. destruct m as [t|]; simpl; [|done]. intros Ht. by rewrite delete_id by auto. Qed.

(** The loop over the levels, from level [i] for [cnt] turns. *)
Lemma delete_levels_loop id (cnt i : nat) hnsw :
  (i + cnt ≤ length (levels hnsw))%nat →
  ∃ ls,
    for_range
      (fun i hnsw =>
         m ← index (levels hnsw) i;
         Ret (with_levels (<[Z.to_nat i := delete_key id m]> (levels hnsw)) hnsw))
      (Z.of_nat i) cnt hnsw = Ret (with_levels ls hnsw) ∧
    ∀ L : nat, ls !! L =
      if decide (i ≤ L < i + cnt)%nat then delete_key id <$> levels hnsw !! L
      else levels hnsw !! L.
Proof.
  revert i hnsw. induction cnt as [|cnt IH]; intros i hnsw Hlen.
  - exists (levels hnsw). split; [by destruct hnsw|].
    intros L. case_decide; [lia|done].
  - cbn [for_range].
    destruct (index_Ret (levels hnsw) (Z.of_nat i)) as (m & -> & Hm); [lia|].
    rewrite Nat2Z.id in Hm. simpl. rewrite Nat2Z.id.
    replace (Z.of_nat i + 1) with (Z.of_nat (S i)) by lia.
    set (hnsw1 := with_levels (<[i := delete_key id m]> (levels hnsw)) hnsw).
    destruct (IH (S i) hnsw1) as (ls & -> & Hls).
    { simpl. rewrite length_insert. lia. }
    exists ls. split; [done|]. intros L. rewrite Hls. simpl.
    destruct (decide (L = i)) as [->|Hne].
    + rewrite list_lookup_insert_eq by lia. rewrite Hm.
      repeat case_decide; try lia. done.
    + rewrite list_lookup_insert_ne by done.
      repeat case_decide; try lia; done.
Qed.

Lemma delete_levels_Ret id hnsw :
  Z.of_nat (length (levels hnsw)) = MaxLevels hnsw →
  delete_levels id hnsw = Ret (with_levels (delete_key id <$> levels hnsw) hnsw).
Proof.
  intros Hlen. unfold delete_levels.
  destruct (delete_levels_loop id (Z.to_nat (MaxLevels hnsw)) 0 hnsw)
    as (ls & Hloop & Hls); [lia|].
  change (Z.of_nat 0) with 0 in Hloop. rewrite Hloop.
  do 2 f_equal. apply list_eq. intros L. rewrite Hls, list_lookup_fmap.
  case_decide as HL; [done|].
  rewrite !lookup_ge_None_2 by lia. done.
Qed.

(** On an index whose slice of levels has [MaxLevels] entries,
    [DeleteVector] returns [nil] and the index with [id] deleted from every
    table. *)
Lemma DeleteVector_Ret id hnsw :
  Z.of_nat (length (levels hnsw)) = MaxLevels hnsw →
  DeleteVector id hnsw =
    Ret ({| heap := heap hnsw;
            nodes := delete id (nodes hnsw);
            levels := delete_key id <$> levels hnsw;
            MaxNeighbors := MaxNeighbors hnsw;
            MaxLevels := MaxLevels hnsw |}, None).
Proof. intros Hlen. unfold DeleteVector. by rewrite delete_levels_Ret. Qed.

Lemma deleted_level_lookup id (ls : list (option (gmap string nat))) (L : nat) m :
  (delete_key id <$> ls) !! L = Some (Some m) →
  ∃ m0, ls !! L = Some (Some m0) ∧ m = delete id m0.
Proof.
  rewrite list_lookup_fmap. destruct (ls !! L) as [[m0|]|]; simpl; [|done..].
  intros [= <-]. by exists m0.
Qed.

Lemma DeleteVector_inv id hnsw hnsw' e :
  inv hnsw → levels_in_nodes hnsw → DeleteVector id hnsw = Ret (hnsw', e) →
  inv hnsw' ∧ levels_in_nodes hnsw'.
Proof.
  intros [Hlen Hlev Hnodes Hnb Hsz] Hkeys. rewrite DeleteVector_Ret by done.
  intros [= <- <-]. split; [split|]; simpl.
  - by rewrite length_fmap.
  - intros L m k p (m0 & HL & ->)%deleted_level_lookup [_ Hk]%lookup_delete_Some.
    by eapply Hlev.
  - intros k p [_ Hk]%lookup_delete_Some. by apply Hnodes.
  - done.
  - done.
  - intros L m k (m0 & HL & ->)%deleted_level_lookup [Hne Hk]%lookup_delete_is_Some.
    simpl. rewrite dom_delete_L. apply elem_of_difference. split.
    + by eapply Hkeys.
    + by intros ->%elem_of_singleton.
Qed.


(** ** [NearestNeighbors] *)

Lemma NearestNeighbors_scan_Ret h query entries c0 d0 c d :
  NearestNeighbors_scan h query entries c0 d0 = Ret (c, d) →
  ∃ ids, c = c0 ++ ids ∧ length d = (length d0 + length ids)%nat ∧
    ∀ id, id ∈ ids → ∃ key p n, (key, p) ∈ entries ∧ h !! p = Some n ∧ HNSWNode.ID n = id.
Proof.
  revert c0 d0. induction entries as [|[key p] entries IH]; intros c0 d0 Hscan.
  - injection Hscan as <- <-. exists []. rewrite app_nil_r.
    split_and!; [done|simpl; lia|]. by intros id ?%elem_of_nil.
  - cbn [NearestNeighbors_scan] in Hscan.
    apply bind_Ret in Hscan as (n & Hn%deref_Ret & Hscan).
    apply bind_Ret in Hscan as (dist & _ & Hscan).
    destruct (IH _ _ Hscan) as (ids & -> & Hlen & Hids).
    exists (HNSWNode.ID n :: ids). rewrite <-app_assoc. split_and!.
    + done.
    + rewrite Hlen, length_app. simpl. lia.
    + intros id [->|Hid]%elem_of_cons.
      * exists key, p, n. split; [by left|done].
      * destruct (Hids id Hid) as (key' & p' & n' & Hin & Hrest).
        exists key', p', n'. split; [by right|done].
Qed.

Lemma NearestNeighbors_scan_returns h query entries c0 d0 :
  (∀ key p, (key, p) ∈ entries →
     ∃ n, h !! p = Some n ∧
       (length (Vector.Values query) ≤ length (Vector.Values (HNSWNode.Vector n)))%nat) →
  returns (NearestNeighbors_scan h query entries c0 d0).
Proof.
  revert c0 d0. induction entries as [|[key p] entries IH]; intros c0 d0 Hentries.
  - by eexists.
  - cbn [NearestNeighbors_scan].
    destruct (Hentries key p) as (n & Hn & Hlen); [by left|].
    rewrite (deref_Some _ _ _ Hn). simpl.
    destruct (euclideanDistance_returns _ _ Hlen) as [dist ->]. simpl.
    apply IH. intros key' p' Hin. apply (Hentries key' p'). by right.
Qed.

Lemma finishes_NearestNeighbors_scan h query entries c0 d0 :
  finishes (NearestNeighbors_scan h query entries c0 d0).
Proof.
  revert c0 d0. induction entries as [|[key p] entries IH]; intros c0 d0; [done|].
  cbn [NearestNeighbors_scan]. apply finishes_bind; [apply finishes_deref|].
  intros n _. apply finishes_bind; [apply finishes_euclideanDistance|].
  intros dist _. apply IH.
Qed.

Lemma finishes_NearestNeighbors_take hnsw candidates distances i best :
  finishes (NearestNeighbors_take hnsw candidates distances i best).
Proof.
  destruct best as [bn bd]. unfold NearestNeighbors_take.
  apply finishes_bind; [apply finishes_index|]. intros c _.
  apply finishes_bind; [apply finishes_deref_key|]. intros node _.
  apply finishes_bind; [apply finishes_index|]. done.
Qed.

Lemma finishes_NearestNeighbors_level o hnsw query k level best :
  finishes (NearestNeighbors_level o hnsw query k level best).
Proof.
  unfold NearestNeighbors_level. apply finishes_bind; [apply finishes_index|].
  intros m _. apply finishes_bind; [apply finishes_NearestNeighbors_scan|].
  intros [c d] Hscan.
  apply NearestNeighbors_scan_Ret in Hscan as (ids & Hc & Hlen & _).
  simpl in Hc. subst c.
  destruct (SliceStable_distances d ids) as (sorted & -> & _); [done|]. simpl.
  apply finishes_for_range. intros. apply finishes_NearestNeighbors_take.
Qed.

Lemma finishes_NearestNeighbors o hnsw query k :
  finishes (NearestNeighbors o hnsw query k).
Proof.
  unfold NearestNeighbors. apply finishes_bind.
  - apply finishes_for_down. intros. apply finishes_NearestNeighbors_level.
  - intros [bn bd] _. case_match; [apply finishes_slice_to|done].
Qed.

Lemma for_down_returns {St} (body : Z → St → outcome St) hi cnt s :
  (∀ i s', hi - Z.of_nat cnt < i ≤ hi → returns (body i s')) →
  returns (for_down body hi cnt s).
Proof.
  revert hi s. induction cnt as [|cnt IH]; intros hi s Hbody; [by eexists|].
  cbn [for_down]. destruct (Hbody hi s) as [s' ->]; [lia|]. simpl.
  apply IH. intros. apply Hbody. lia.
Qed.

Lemma NearestNeighbors_take_eq hnsw candidates distances i bn bd :
  NearestNeighbors_take hnsw candidates distances i (bn, bd) =
    c ← index candidates i;
    node ← deref_key hnsw c;
    d ← index distances i;
    Ret (bn ++ [HNSWNode.Vector node], bd ++ [d]).
Proof. done. Qed.

Lemma NearestNeighbors_take_loop hnsw candidates distances (cnt lo : nat) best :
  (lo + cnt ≤ length candidates)%nat → (lo + cnt ≤ length distances)%nat →
  (∀ c, c ∈ candidates → returns (deref_key hnsw c)) →
  returns (for_range (NearestNeighbors_take hnsw candidates distances)
                     (Z.of_nat lo) cnt best).
Proof.
  intros Hc Hd Hkeys. revert lo best Hc Hd.
  induction cnt as [|cnt IH]; intros lo [bn bd] Hc Hd; [by eexists|].
  cbn [for_range]. rewrite NearestNeighbors_take_eq.
  destruct (index_Ret candidates (Z.of_nat lo)) as (c & -> & Hlc); [lia|]. simpl.
  destruct (Hkeys c) as [node ->]; [by eapply list_elem_of_lookup_2|]. simpl.
  destruct (index_Ret distances (Z.of_nat lo)) as (d & -> & _); [lia|]. simpl.
  replace (Z.of_nat lo + 1) with (Z.of_nat (S lo)) by lia.
  apply IH; lia.
Qed.

(** Every candidate that the scan of a level table yields is a key of the
    flat table, and the pointer stored there is to a node. *)
Lemma candidates_in_nodes o hnsw query level (L : nat) m candidates distances :
  inv hnsw → levels_in_nodes hnsw → fair o →
  levels hnsw !! L = Some m →
  NearestNeighbors_scan (heap hnsw) query (range_map o level m) [] []
    = Ret (candidates, distances) →
  ∀ c, c ∈ candidates → returns (deref_key hnsw c).
Proof.
  intros [_ Hlev Hnodes _ _] Hkeys Hfair HL Hscan c Hc.
  apply NearestNeighbors_scan_Ret in Hscan as (ids & -> & _ & Hids).
  destruct (Hids c Hc) as (key & p & n & Hin & Hn & HID).
  apply elem_of_range_map in Hin; [|done].
  destruct m as [t|]; simpl in Hin; [|done].
  destruct (Hlev _ _ _ _ HL Hin) as (n' & Hn' & HID').
  assert (c = key) as -> by congruence.
  assert (key ∈ dom (nodes hnsw)) as [p' Hp']%elem_of_dom by (by eapply Hkeys).
  destruct (Hnodes _ _ Hp') as (x & Hx & _).
  exists x. unfold deref_key. rewrite Hp'. by apply deref_Some.
Qed.

Lemma NearestNeighbors_level_returns o hnsw query k level best :
  inv hnsw → levels_in_nodes hnsw → fair o → fits query hnsw →
  0 ≤ level < MaxLevels hnsw →
  returns (NearestNeighbors_level o hnsw query k level best).
Proof.
  intros Hinv Hkeys Hfair Hfits Hlevel. unfold NearestNeighbors_level.
  destruct (index_Ret (levels hnsw) level) as (m & -> & Hm).
  { rewrite (inv_levels _ Hinv). lia. }
  simpl.
  destruct (NearestNeighbors_scan_returns (heap hnsw) query (range_map o level m) [] [])
    as [[c d] Hscan].
  { intros key p Hin. apply elem_of_range_map in Hin; [|done].
    destruct m as [t|]; simpl in Hin; [|done].
    destruct (inv_level_nodes _ Hinv _ _ _ _ Hm Hin) as (n & Hn & _).
    exists n. split; [done|]. by eapply Hfits. }
  rewrite Hscan. simpl.
  pose proof (candidates_in_nodes _ _ _ _ _ _ _ _ Hinv Hkeys Hfair Hm Hscan) as Hcands.
  apply NearestNeighbors_scan_Ret in Hscan as (ids & Hc & Hlen & _).
  simpl in Hc. subst c.
  destruct (SliceStable_distances d ids) as (sorted & -> & Hperm); [done|]. simpl.
  apply (NearestNeighbors_take_loop hnsw sorted d _ 0%nat).
  - lia.
  - simpl in Hlen. rewrite Hlen, <-(Permutation_length Hperm). lia.
  - intros c Hc. apply Hcands. by rewrite <-Hperm.
Qed.

Lemma NearestNeighbors_returns o hnsw query k :
  inv hnsw → levels_in_nodes hnsw → fair o → fits query hnsw → 0 ≤ k →
  returns (NearestNeighbors o hnsw query k).
Proof.
  intros Hinv Hkeys Hfair Hfits Hk. unfold NearestNeighbors.
  rewrite (bottom_inv _ Hinv).
  destruct (for_down_returns (NearestNeighbors_level o hnsw query k)
              (MaxLevels hnsw - 1) (Z.to_nat (MaxLevels hnsw - 1 + 1)) ([], []))
    as [[bn bd] ->].
  { intros i s Hi. apply NearestNeighbors_level_returns; [done..|lia]. }
  simpl. by apply truncate_returns.
Qed.

(** The result is never longer than [k]. *)
Lemma NearestNeighbors_length o hnsw query k r :
  NearestNeighbors o hnsw query k = Ret r → Z.of_nat (length r) ≤ k.
Proof.
  unfold NearestNeighbors. intros Hnn.
  apply bind_Ret in Hnn as ([bn bd] & _ & Hnn). by apply truncate_Ret in Hnn as [? _].
Qed.

(** No level table holds a vector. *)
Definition vacant (hnsw : HNSW) : Prop :=
  ∀ (L : nat) m, levels hnsw !! L = Some m → default ∅ m = ∅.

Lemma NearestNeighbors_level_vacant o hnsw query k level best :
  Z.of_nat (length (levels hnsw)) = MaxLevels hnsw → vacant hnsw → fair o →
  0 ≤ level < MaxLevels hnsw →
  NearestNeighbors_level o hnsw query k level best = Ret best.
Proof.
  intros Hlen Hvacant Hfair Hlevel. unfold NearestNeighbors_level.
  destruct (index_Ret (levels hnsw) level) as (m & -> & Hm); [lia|]. simpl.
  assert (range_map o level m = []) as ->.
  { unfold range_map. rewrite (Hvacant _ _ Hm), map_to_list_empty.
    apply Permutation_nil_r, Hfair. }
  simpl. change (SliceStable (λ _, less_distances []) (@nil string)) with (Ret (@nil string)).
  simpl. by replace (Z.to_nat (Z.min k (Z.of_nat 0))) with 0%nat by lia.
Qed.

Lemma NearestNeighbors_loop_vacant o hnsw query k (cnt : nat) best :
  Z.of_nat (length (levels hnsw)) = MaxLevels hnsw → vacant hnsw → fair o →
  Z.of_nat cnt ≤ MaxLevels hnsw →
  for_down (NearestNeighbors_level o hnsw query k) (Z.of_nat cnt - 1) cnt best = Ret best.
Proof.
  intros Hlen Hvacant Hfair. induction cnt as [|cnt IH]; intros Hcnt; [done|].
  cbn [for_down]. rewrite NearestNeighbors_level_vacant by (done || lia). simpl.
  replace (Z.of_nat (S cnt) - 1 - 1) with (Z.of_nat cnt - 1) by lia.
  apply IH. lia.
Qed.

Lemma NearestNeighbors_vacant o hnsw query k :
  Z.of_nat (length (levels hnsw)) = MaxLevels hnsw → MaxLevels hnsw ≤ max_slice_len →
  vacant hnsw → fair o →
  NearestNeighbors o hnsw query k = if 0 >? k then Panic SliceBounds else Ret [].
Proof.
  intros Hlen Hsz Hvacant Hfair. unfold NearestNeighbors.
  rewrite (bottom_eq _ Hlen Hsz).
  pose proof (NearestNeighbors_loop_vacant o hnsw query k (Z.to_nat (MaxLevels hnsw))
                ([], []) Hlen Hvacant Hfair ltac:(lia)) as Hloop.
  rewrite Z2Nat.id in Hloop by lia.
  replace (Z.to_nat (MaxLevels hnsw - 1 + 1)) with (Z.to_nat (MaxLevels hnsw)) by lia.
  rewrite Hloop. simpl.
  change (Z.of_nat 0) with 0.
  rewrite Z.gtb_ltb. destruct (Z.ltb_spec k 0); [|done].
  unfold slice_to. destruct (Z.leb_spec 0 k); [lia|done].
Qed.

(** ** Reachable indexes *)

Lemma AddVector_Ret o id v hnsw hnsw' :
  AddVector o id v hnsw = Ret hnsw' ↔ ∃ top, AddVector_at o id v hnsw = Ret (hnsw', top).
Proof.
  unfold AddVector. split.
  - intros ([h top] & Hat & ->)%fmap_Ret. by exists top.
  - intros [top ->]. done.
Qed.

(** The indexes that [NewHNSW(maxNeighbors, maxLevels)] and the public
    operations that complete produce. *)
Inductive reachable (maxNeighbors maxLevels : Z) : HNSW → Prop :=
  | reach_NewHNSW hnsw :
      NewHNSW maxNeighbors maxLevels = Ret hnsw →
      reachable maxNeighbors maxLevels hnsw
  | reach_AddVector o id v hnsw hnsw' :
      reachable maxNeighbors maxLevels hnsw → fair o →
      AddVector o id v hnsw = Ret hnsw' →
      reachable maxNeighbors maxLevels hnsw'
  | reach_UpdateVector o id v hnsw hnsw' e :
      reachable maxNeighbors maxLevels hnsw → fair o →
      UpdateVector o id v hnsw = Ret (hnsw', e) →
      reachable maxNeighbors maxLevels hnsw'
  | reach_DeleteVector id hnsw hnsw' e :
      reachable maxNeighbors maxLevels hnsw →
      DeleteVector id hnsw = Ret (hnsw', e) →
      reachable maxNeighbors maxLevels hnsw'.

Lemma NewHNSW_Ret maxNeighbors maxLevels hnsw :
  NewHNSW maxNeighbors maxLevels = Ret hnsw →
  0 ≤ maxLevels ≤ max_slice_len ∧
  hnsw = {| heap := []; nodes := ∅; levels := replicate (Z.to_nat maxLevels) None;
            MaxNeighbors := maxNeighbors; MaxLevels := maxLevels |}.
Proof.
  unfold NewHNSW.
  destruct (Z.ltb_spec maxLevels 0), (Z.ltb_spec max_slice_len maxLevels); try done.
  by intros [= <-].
Qed.

Lemma NewHNSW_returns maxNeighbors maxLevels :
  0 ≤ maxLevels ≤ max_slice_len → returns (NewHNSW maxNeighbors maxLevels).
Proof.
  intros Hml. unfold NewHNSW.
  destruct (Z.ltb_spec maxLevels 0), (Z.ltb_spec max_slice_len maxLevels); try lia.
  by eexists.
Qed.

Lemma NewHNSW_vacant maxNeighbors maxLevels hnsw :
  NewHNSW maxNeighbors maxLevels = Ret hnsw →
  Z.of_nat (length (levels hnsw)) = MaxLevels hnsw ∧
  MaxLevels hnsw ≤ max_slice_len ∧ vacant hnsw.
Proof.
  intros [Hml ->]%NewHNSW_Ret. simpl. split_and!; [rewrite length_replicate; lia|lia|].
  intros L m [-> _]%lookup_replicate. done.
Qed.

Lemma NewHNSW_inv maxNeighbors maxLevels hnsw :
  NewHNSW maxNeighbors maxLevels = Ret hnsw → inv hnsw ∧ levels_in_nodes hnsw.
Proof.
  intros [Hml ->]%NewHNSW_Ret. split; [split|]; simpl.
  - rewrite length_replicate. lia.
  - by intros L m id p [? _]%lookup_replicate.
  - by intros id p ?.
  - by intros p n ?.
  - lia.
  - by intros L m id [? _]%lookup_replicate.
Qed.

(** What holds of every reachable index: the invariants, the two
    configuration values as given to [NewHNSW], and, once a vector has
    been inserted, a configuration that allows insertion. *)
Lemma reachable_inv maxNeighbors maxLevels hnsw :
  reachable maxNeighbors maxLevels hnsw →
  inv hnsw ∧ levels_in_nodes hnsw ∧
  MaxNeighbors hnsw = maxNeighbors ∧ MaxLevels hnsw = maxLevels ∧
  (nodes hnsw = ∅ ∨ (0 ≤ maxNeighbors ∧ 1 ≤ maxLevels)).
Proof.
  induction 1 as [hnsw Hnew|o id v hnsw hnsw' _ IH Hfair Hadd
                  |o id v hnsw hnsw' e _ IH Hfair Hupd|id hnsw hnsw' e _ IH Hdel].
  - destruct (NewHNSW_inv _ _ _ Hnew) as [Hinv Hkeys].
    apply NewHNSW_Ret in Hnew as [_ ->]. split_and!; try done. by left.
  - destruct IH as (Hinv & Hkeys & Hmn & Hml & _).
    apply AddVector_Ret in Hadd as [top Hadd].
    destruct (AddVector_at_inv _ _ _ _ _ _ Hinv Hkeys Hadd) as (? & ? & ? & ?).
    destruct (AddVector_at_Ret _ _ _ _ _ _ Hadd) as (_ & _ & _ & _ & ? & ? & _).
    split_and!; [done|done|congruence|congruence|right; lia].
  - destruct IH as (Hinv & Hkeys & Hmn & Hml & Hpop).
    unfold UpdateVector in Hupd. destruct (nodes hnsw !! id) as [p|] eqn:Hid.
    + apply bind_Ret in Hupd as ([hnsw1 e1] & Hdel & Hupd).
      apply bind_Ret in Hupd as (hnsw2 & Hadd & Hupd). injection Hupd as <- <-.
      destruct (DeleteVector_inv _ _ _ _ Hinv Hkeys Hdel) as [Hinv1 Hkeys1].
      rewrite DeleteVector_Ret in Hdel by apply Hinv. injection Hdel as <- <-.
      apply AddVector_Ret in Hadd as [top Hadd].
      destruct (AddVector_at_inv _ _ _ _ _ _ Hinv1 Hkeys1 Hadd) as (? & ? & ? & ?).
      destruct (AddVector_at_Ret _ _ _ _ _ _ Hadd) as (_ & _ & _ & _ & ? & ? & _).
      simpl in *. split_and!; [done|done|congruence|congruence|right; lia].
    + by injection Hupd as <- <-.
  - destruct IH as (Hinv & Hkeys & Hmn & Hml & Hpop).
    destruct (DeleteVector_inv _ _ _ _ Hinv Hkeys Hdel) as [Hinv1 Hkeys1].
    rewrite DeleteVector_Ret in Hdel by apply Hinv. injection Hdel as <- <-.
    simpl. split_and!; try done.
    destruct Hpop as [->|?]; [left; apply delete_empty|by right].
Qed.

(** ** Concrete indexes *)

(** An oracle that visits every table in the order [map_to_list] lists it
    and whose every trial has the outcome [coin]. *)
Definition in_order (coin : bool) : oracle :=
  {| flip := fun _ => coin; order := fun _ entries => entries |}.

Lemma fair_in_order coin : fair (in_order coin).
Proof. by intros level l. Qed.

(** An oracle that visits every table starting at the second entry of
    [map_to_list] and ending with the first; no trial succeeds. *)
Definition rotated : oracle :=
  {| flip := fun _ => false;
     order := fun _ entries =>
       match entries with
       | [] => []
       | e :: rest => rest ++ [e]
       end |}.

Lemma fair_rotated : fair rotated.
Proof.
  intros level [|e rest]; simpl; [done|]. symmetry. apply Permutation_cons_append.
Qed.

(** The vector [(x, 0)]. *)
Definition point (id : string) (x : float) : Vector.t :=
  {| Vector.ID := id; Vector.Values := [x; 0%float] |}.

Definition origin : Vector.t := point "q" 0.

Definition node (id : string) (neighbors : list string) (v : Vector.t) : HNSWNode.t :=
  {| HNSWNode.ID := id; HNSWNode.Neighbors := neighbors; HNSWNode.Vector := v |}.

(** [NewHNSW(5, 1)], then ["a"] at distance 10 from the origin, ["b"] at
    distance 1 and ["c"] at distance 5. *)
Definition three_points : outcome HNSW :=
  hnsw ← NewHNSW 5 1;
  hnsw ← AddVector (in_order false) "a" (point "a" 10) hnsw;
  hnsw ← AddVector (in_order false) "b" (point "b" 1) hnsw;
  AddVector (in_order false) "c" (point "c" 5) hnsw.

Definition table_abc : gmap string nat :=
  <["c" := 2%nat]> (<["b" := 1%nat]> (<["a" := 0%nat]> ∅)).

Definition index_abc : HNSW :=
  {| heap := [node "a" [] (point "a" 10); node "b" ["a"] (point "b" 1);
              node "c" ["b"; "a"] (point "c" 5)];
     nodes := table_abc;
     levels := [Some table_abc];
     MaxNeighbors := 5;
     MaxLevels := 1 |}.

Lemma three_points_Ret : three_points = Ret index_abc.
Proof. vm_compute. reflexivity. Qed.

Lemma reachable_index_abc : reachable 5 1 index_abc.
Proof.
  pose proof three_points_Ret as Hrun. unfold three_points in Hrun.
  apply bind_Ret in Hrun as (h0 & H0 & Hrun).
  apply bind_Ret in Hrun as (h1 & H1 & Hrun).
  apply bind_Ret in Hrun as (h2 & H2 & H3).
  eapply reach_AddVector; [|apply (fair_in_order false)|exact H3].
  eapply reach_AddVector; [|apply (fair_in_order false)|exact H2].
  eapply reach_AddVector; [|apply (fair_in_order false)|exact H1].
  by apply reach_NewHNSW.
Qed.

Lemma fits_index_abc (v : Vector.t) :
  (length (Vector.Values v) ≤ 2)%nat → fits v index_abc.
Proof.
  intros Hv L m id p n HL Hp Hn.
  destruct L as [|L]; [|done]. injection HL as <-.
  destruct p as [|[|[|p]]]; simplify_eq/=; done.
Qed.

(** [NewHNSW(5, 2)], then ["a"], which stays at the bottom level, then
    ["b"], which is promoted to level 0. *)
Definition two_levels_a : HNSW :=
  {| heap := [node "a" [] (point "a" 10)];
     nodes := {["a" := 0%nat]};
     levels := [None; Some {["a" := 0%nat]}];
     MaxNeighbors := 5;
     MaxLevels := 2 |}.

Definition two_levels_ab : HNSW :=
  {| heap := [node "a" [] (point "a" 10); node "b" [] (point "b" 1)];
     nodes := <["b" := 1%nat]> {["a" := 0%nat]};
     levels := [Some {["b" := 1%nat]}; Some (<["b" := 1%nat]> {["a" := 0%nat]})];
     MaxNeighbors := 5;
     MaxLevels := 2 |}.

Lemma two_levels_a_Ret :
  (hnsw ← NewHNSW 5 2; AddVector (in_order false) "a" (point "a" 10) hnsw)
  = Ret two_levels_a.
Proof. vm_compute. reflexivity. Qed.

Lemma two_levels_ab_Ret :
  AddVector (in_order true) "b" (point "b" 1) two_levels_a = Ret two_levels_ab.
Proof. vm_compute. reflexivity. Qed.

(** ** The properties of the specification *)

(** C1. Three vectors at distances 10, 1 and 5 from the query along the
    first axis, in an index of one level. The sort compares
    [distances[i] < distances[j]] at the positions being compared while
    only [candidates] is swapped, so what it leaves depends on the order
    in which [range] visited the table. Visited in the order c, a, b
    (distances 5, 10, 1), the candidates are left as c, b, a and
    [NearestNeighbors(query, 2)] returns the vectors at distances 5 and
    1, in that order: not ascending. Visited in the order a, b, c
    (distances 10, 1, 5), they are left as b, a, c and the result is the
    vectors at distances 1 and 10: not the two closest. *)
Theorem NearestNeighbors_three_points_not_ascending :
  three_points = Ret index_abc ∧
  euclideanDistance origin (point "a" 10) = Ret 10%float ∧
  euclideanDistance origin (point "b" 1) = Ret 1%float ∧
  euclideanDistance origin (point "c" 5) = Ret 5%float ∧
  (range_map (in_order false) 0 (Some table_abc)
     = [("c", 2%nat); ("a", 0%nat); ("b", 1%nat)] ∧
   SliceStable (λ _, less_distances [5; 10; 1]%float) ["c"; "a"; "b"] = Ret ["c"; "b"; "a"] ∧
   NearestNeighbors (in_order false) index_abc origin 2
     = Ret [point "c" 5; point "b" 1]) ∧
  (range_map rotated 0 (Some table_abc)
     = [("a", 0%nat); ("b", 1%nat); ("c", 2%nat)] ∧
   SliceStable (λ _, less_distances [10; 1; 5]%float) ["a"; "b"; "c"] = Ret ["b"; "a"; "c"] ∧
   NearestNeighbors rotated index_abc origin 2
     = Ret [point "b" 1; point "a" 10]).
Proof. split_and!; vm_compute; reflexivity. Qed.



(** C4. For [k >= 0], a result of [NearestNeighbors(query, k)] has at most
    [k] vectors, on every index; on an index just built by [NewHNSW], with
    no vector inserted, the result is the empty sequence; and on every
    reachable index none of whose stored vectors has fewer values than the
    query, [NearestNeighbors] does return. *)
Theorem NearestNeighbors_at_most_k (o : oracle) (hnsw : HNSW) (query : Vector.t) (k : Z) :
  0 ≤ k →
  (∀ r, NearestNeighbors o hnsw query k = Ret r → Z.of_nat (length r) ≤ k) ∧
  (∀ maxNeighbors maxLevels,
     0 ≤ maxLevels ≤ max_slice_len → fair o →
     ∃ empty, NewHNSW maxNeighbors maxLevels = Ret empty ∧
              NearestNeighbors o empty query k = Ret []) ∧
  (∀ maxNeighbors maxLevels,
     reachable maxNeighbors maxLevels hnsw → fair o → fits query hnsw →
     ∃ r, NearestNeighbors o hnsw query k = Ret r ∧ Z.of_nat (length r) ≤ k).
Proof.
  intros Hk. split_and!.
  - intros r. apply NearestNeighbors_length.
  - intros mn ml Hml Hfair. destruct (NewHNSW_returns mn ml Hml) as [empty Hnew].
    exists empty. split; [done|].
    apply NewHNSW_vacant in Hnew as (Hlen & Hsz & Hvacant).
    rewrite NearestNeighbors_vacant by done.
    rewrite Z.gtb_ltb. by destruct (Z.ltb_spec k 0); [lia|].
  - intros mn ml (Hinv & Hkeys & _)%reachable_inv Hfair Hfits.
    destruct (NearestNeighbors_returns o hnsw query k) as [r Hr]; [done..|].
    exists r. split; [done|]. by eapply NearestNeighbors_length.
Qed.

Lemma NearestNeighbors_at_most_k_witness :
  (∀ r, NearestNeighbors (in_order false) index_abc origin 2 = Ret r →
        Z.of_nat (length r) ≤ 2) ∧
  (∀ maxNeighbors maxLevels,
     0 ≤ maxLevels ≤ max_slice_len → fair (in_order false) →
     ∃ empty, NewHNSW maxNeighbors maxLevels = Ret empty ∧
              NearestNeighbors (in_order false) empty origin 2 = Ret []) ∧
  (∀ maxNeighbors maxLevels,
     reachable maxNeighbors maxLevels index_abc → fair (in_order false) →
     fits origin index_abc →
     ∃ r, NearestNeighbors (in_order false) index_abc origin 2 = Ret r ∧
          Z.of_nat (length r) ≤ 2).
Proof.
  apply (NearestNeighbors_at_most_k (in_order false) index_abc origin 2). lia.
Defined.

Lemma NearestNeighbors_loop_returns o hnsw query k :
  inv hnsw → levels_in_nodes hnsw → fair o → fits query hnsw →
  returns (for_down (NearestNeighbors_level o hnsw query k)
                    (bottom hnsw) (Z.to_nat (bottom hnsw + 1)) ([], [])).
Proof.
  intros Hinv Hkeys Hfair Hfits. rewrite (bottom_inv _ Hinv).
  apply for_down_returns. intros i s Hi.
  apply NearestNeighbors_level_returns; [done..|lia].
Qed.

Lemma NearestNeighbors_negative_truncation o hnsw query k best :
  k < 0 →
  for_down (NearestNeighbors_level o hnsw query k)
           (bottom hnsw) (Z.to_nat (bottom hnsw + 1)) ([], []) = Ret best →
  NearestNeighbors o hnsw query k = Panic SliceBounds.
Proof.
  intros Hk Hloop. unfold NearestNeighbors. rewrite Hloop. simpl.
  destruct best as [bn bd]. rewrite Z.gtb_ltb.
  destruct (Z.ltb_spec k (Z.of_nat (length bn))); [|lia].
  unfold slice_to. by destruct (Z.leb_spec 0 k); [lia|].
Qed.

(** C10. For [k < 0], [NearestNeighbors(query, k)] fails on every index:
    it ends in a panic. On a reachable index none of whose stored vectors
    has fewer values than the query, and in particular on an index just
    built by [NewHNSW], the panic is the one of the final truncation,
    [bestNeighbors[:k]] with [len(bestNeighbors) >= 0 > k]. *)
Theorem NearestNeighbors_negative_k (o : oracle) (hnsw : HNSW) (query : Vector.t) (k : Z) :
  k < 0 →
  (∃ e, NearestNeighbors o hnsw query k = Panic e ∧ e ≠ FuelExhausted) ∧
  (∀ maxNeighbors maxLevels,
     reachable maxNeighbors maxLevels hnsw → fair o → fits query hnsw →
     NearestNeighbors o hnsw query k = Panic SliceBounds) ∧
  (∀ maxNeighbors maxLevels,
     0 ≤ maxLevels ≤ max_slice_len → fair o →
     ∃ empty, NewHNSW maxNeighbors maxLevels = Ret empty ∧
              NearestNeighbors o empty query k = Panic SliceBounds).
Proof.
  intros Hk. split_and!.
  - pose proof (finishes_NearestNeighbors o hnsw query k) as Hfin.
    destruct (NearestNeighbors o hnsw query k) as [r|e] eqn:Hnn.
    + apply NearestNeighbors_length in Hnn. lia.
    + exists e. split; [done|]. by intros ->.
  - intros mn ml (Hinv & Hkeys & _)%reachable_inv Hfair Hfits.
    destruct (NearestNeighbors_loop_returns o hnsw query k) as [best Hloop]; [done..|].
    by eapply NearestNeighbors_negative_truncation.
  - intros mn ml Hml Hfair. destruct (NewHNSW_returns mn ml Hml) as [empty Hnew].
    exists empty. split; [done|].
    apply NewHNSW_vacant in Hnew as (Hlen & Hsz & Hvacant).
    rewrite NearestNeighbors_vacant by done.
    rewrite Z.gtb_ltb. by destruct (Z.ltb_spec k 0); [|lia].
Qed.

Lemma NearestNeighbors_negative_k_witness :
  (∃ e, NearestNeighbors (in_order false) index_abc origin (-1) = Panic e ∧
        e ≠ FuelExhausted) ∧
  (∀ maxNeighbors maxLevels,
     reachable maxNeighbors maxLevels index_abc → fair (in_order false) →
     fits origin index_abc →
     NearestNeighbors (in_order false) index_abc origin (-1) = Panic SliceBounds) ∧
  (∀ maxNeighbors maxLevels,
     0 ≤ maxLevels ≤ max_slice_len → fair (in_order false) →
     ∃ empty, NewHNSW maxNeighbors maxLevels = Ret empty ∧
              NearestNeighbors (in_order false) empty origin (-1) = Panic SliceBounds).
Proof.
  apply (NearestNeighbors_negative_k (in_order false) index_abc origin (-1)). lia.
Defined.

(** The first half of C2 in the specification's words: two entries for
    one [id] in the tables of two different levels point to two
    different node objects. *)
Definition own_node_per_level (hnsw : HNSW) : Prop :=
  ∀ (L1 L2 : nat) m1 m2 id p1 p2,
    L1 ≠ L2 →
    levels hnsw !! L1 = Some (Some m1) → levels hnsw !! L2 = Some (Some m2) →
    m1 !! id = Some p1 → m2 !! id = Some p2 → p1 ≠ p2.

(** C2, as stated, fails. ["b"] is inserted into an index of two levels
    that holds ["a"] at the bottom level, and is promoted to level 0. The
    tables of both levels and the flat table then hold the same node
    object; its [Neighbors], read through the flat table, is the empty
    selection made at level 0, while the selection at the bottom level
    is ["a"]. *)
Lemma flat_table_node_shared_by_levels :
  AddVector (in_order true) "b" (point "b" 1) two_levels_a = Ret two_levels_ab ∧
  ¬ own_node_per_level two_levels_ab ∧
  deref_key two_levels_ab "b" = Ret (node "b" [] (point "b" 1)) ∧
  findNeighbors (in_order true) two_levels_ab 1 (bottom two_levels_ab) = Ret ["a"].
Proof.
  split_and!; try (vm_compute; reflexivity).
  intros Hown.
  by apply (Hown 0%nat 1%nat {["b" := 1%nat]} (<["b" := 1%nat]> {["a" := 0%nat]})
              "b" 1%nat 1%nat).
Qed.

(** C2, amended. A completed [AddVector(id, vector)] creates one node
    object. With [top] the shallowest level the insertion reached, which
    is the bottom level when the first trial fails and a higher level
    when it succeeds and there is one, that object is the value of [id]
    in the flat table and in the table of every level from [top] down to
    the bottom level, it carries [id] and [vector], and its [Neighbors]
    are the ones [findNeighbors] selects for it at [top]. *)
Theorem AddVector_one_node_for_all_levels
    (o : oracle) (id : string) (vector : Vector.t) (hnsw hnsw' : HNSW) :
  AddVector o id vector hnsw = Ret hnsw' →
  ∃ top n,
    0 ≤ top ≤ bottom hnsw ∧
    (flip o (bottom hnsw) = false → top = bottom hnsw) ∧
    (flip o (bottom hnsw) = true → 0 < bottom hnsw →
       top < bottom hnsw) ∧
    nodes hnsw' !! id = Some (length (heap hnsw)) ∧
    (∀ L : nat, top ≤ Z.of_nat L ≤ bottom hnsw →
       ∃ m, levels hnsw' !! L = Some (Some m) ∧ m !! id = Some (length (heap hnsw))) ∧
    heap hnsw' !! length (heap hnsw) = Some n ∧
    HNSWNode.ID n = id ∧ HNSWNode.Vector n = vector ∧
    findNeighbors o hnsw' (length (heap hnsw)) top = Ret (HNSWNode.Neighbors n).
Proof.
  intros [top Hadd]%AddVector_Ret.
  destruct (AddVector_at_Ret _ _ _ _ _ _ Hadd)
    as (Htop & Hflip & Hstrict & Hnodes & _ & _ & _ & Hlevels & (n & Hn & HID & HV & Hfind)).
  exists top, n. rewrite Hnodes, lookup_insert_eq. split_and!; try done; lia.
Qed.

Lemma AddVector_one_node_for_all_levels_witness :
  ∃ top n,
    0 ≤ top ≤ bottom two_levels_a ∧
    (flip (in_order true) (bottom two_levels_a) = false →
       top = bottom two_levels_a) ∧
    (flip (in_order true) (bottom two_levels_a) = true →
       0 < bottom two_levels_a → top < bottom two_levels_a) ∧
    nodes two_levels_ab !! "b" = Some (length (heap two_levels_a)) ∧
    (∀ L : nat, top ≤ Z.of_nat L ≤ bottom two_levels_a →
       ∃ m, levels two_levels_ab !! L = Some (Some m) ∧
            m !! "b" = Some (length (heap two_levels_a))) ∧
    heap two_levels_ab !! length (heap two_levels_a) = Some n ∧
    HNSWNode.ID n = "b" ∧ HNSWNode.Vector n = point "b" 1 ∧
    findNeighbors (in_order true) two_levels_ab (length (heap two_levels_a)) top
      = Ret (HNSWNode.Neighbors n).
Proof.
  apply (AddVector_one_node_for_all_levels (in_order true) "b" (point "b" 1)
           two_levels_a two_levels_ab).
  vm_compute. reflexivity.
Defined.

(** C3, as stated, fails: on an index built with [maxLevels = 0],
    [AddVector] indexes the empty slice of levels at [-1]. *)
Lemma AddVector_maxLevels_0_panics :
  (hnsw ← NewHNSW 5 0; AddVector (in_order false) "a" (point "a" 1) hnsw)
  = Panic IndexOutOfRange.
Proof. vm_compute. reflexivity. Qed.

Lemma AddVector_no_levels o id v hnsw :
  MaxLevels hnsw = 0 → AddVector o id v hnsw = Panic IndexOutOfRange.
Proof.
  intros Hml. unfold AddVector, AddVector_at, addNodeToLevel, bottom.
  simpl. by rewrite Hml.
Qed.

Lemma NearestNeighbors_no_levels o hnsw query k :
  MaxLevels hnsw = 0 → 0 ≤ k → NearestNeighbors o hnsw query k = Ret [].
Proof.
  intros Hml Hk. unfold NearestNeighbors, bottom. rewrite Hml. simpl.
  change (Z.of_nat 0) with 0. rewrite Z.gtb_ltb. by destruct (Z.ltb_spec k 0); [lia|].
Qed.

(** C3, amended. [AddVector] has no error return. On an index reachable
    from [NewHNSW(maxNeighbors, maxLevels)] with [maxNeighbors >= 0] and
    [maxLevels >= 1] it completes, and [id] then maps to the vector in
    the flat table, whenever no stored vector has fewer values than the
    inserted one. With [maxLevels = 0] it fails with an index out of
    range, so nothing is stored, and every query with [k >= 0] answers
    zero results. *)
Theorem AddVector_completes (maxNeighbors maxLevels : Z) (o : oracle) (id : string)
    (vector : Vector.t) (hnsw : HNSW) :
  reachable maxNeighbors maxLevels hnsw → fair o →
  (0 ≤ maxNeighbors → 1 ≤ maxLevels → fits vector hnsw →
     ∃ hnsw' n, AddVector o id vector hnsw = Ret hnsw' ∧
                deref_key hnsw' id = Ret n ∧ HNSWNode.Vector n = vector) ∧
  (maxLevels = 0 →
     AddVector o id vector hnsw = Panic IndexOutOfRange ∧
     ∀ query k, 0 ≤ k → NearestNeighbors o hnsw query k = Ret []).
Proof.
  intros (Hinv & Hkeys & Hmn & Hml & _)%reachable_inv Hfair. split.
  - intros Hmn0 Hml1 Hfits.
    destruct (AddVector_at_returns o id vector hnsw) as [[hnsw' top] Hadd];
      [done|done|lia|lia|done|].
    destruct (AddVector_at_Ret _ _ _ _ _ _ Hadd)
      as (_ & _ & _ & Hnodes & _ & _ & _ & _ & (n & Hn & _ & HV & _)).
    exists hnsw', n. split_and!; [|unfold deref_key|done].
    + apply AddVector_Ret. by exists top.
    + rewrite Hnodes, lookup_insert_eq. by apply deref_Some.
  - intros ->. split.
    + by apply AddVector_no_levels.
    + intros query k Hk. by apply NearestNeighbors_no_levels.
Qed.

Lemma AddVector_completes_witness :
  (0 ≤ 5 → 1 ≤ 1 → fits (point "d" 7) index_abc →
     ∃ hnsw' n, AddVector (in_order false) "d" (point "d" 7) index_abc = Ret hnsw' ∧
                deref_key hnsw' "d" = Ret n ∧ HNSWNode.Vector n = point "d" 7) ∧
  (1 = 0 →
     AddVector (in_order false) "d" (point "d" 7) index_abc = Panic IndexOutOfRange ∧
     ∀ query k, 0 ≤ k → NearestNeighbors (in_order false) index_abc query k = Ret []).
Proof.
  apply (AddVector_completes 5 1 (in_order false) "d" (point "d" 7) index_abc).
  - apply reachable_index_abc.
  - apply fair_in_order.
Defined.

Lemma nodes_populated maxNeighbors maxLevels hnsw id :
  reachable maxNeighbors maxLevels hnsw → is_Some (nodes hnsw !! id) →
  0 ≤ maxNeighbors ∧ 1 ≤ maxLevels.
Proof.
  intros (_ & _ & _ & _ & [Hempty|?])%reachable_inv [p Hp]; [|done].
  by rewrite Hempty, lookup_empty in Hp.
Qed.




Lemma finishes_DeleteVector id hnsw : finishes (DeleteVector id hnsw).
Proof.
  unfold DeleteVector, delete_levels. apply finishes_bind; [|done].
  apply finishes_for_range. intros i h.
  apply finishes_bind; [apply finishes_index|done].
Qed.

Lemma finishes_UpdateVector o id v hnsw : finishes (UpdateVector o id v hnsw).
Proof.
  unfold UpdateVector. case_match; [|done].
  apply finishes_bind; [apply finishes_DeleteVector|]. intros [hnsw1 e] _.
  apply finishes_bind; [apply finishes_AddVector|done].
Qed.

(** C6. On every index whose slice of levels has [MaxLevels] entries, as
    [NewHNSW] builds it and every operation keeps it, so on every
    reachable index, [DeleteVector(id)] returns [nil]; afterwards [id] is
    a key neither of the flat table nor of any level table; deleting [id]
    again returns [nil] and changes nothing; and when [id] is in no table
    of the index, which on a reachable index is when it is not a key of
    the flat table, the index is left as it was. *)
Theorem DeleteVector_always_nil (id : string) (hnsw : HNSW) :
  Z.of_nat (length (levels hnsw)) = MaxLevels hnsw →
  ∃ hnsw',
    DeleteVector id hnsw = Ret (hnsw', None) ∧
    nodes hnsw' !! id = None ∧
    (∀ (L : nat) m, levels hnsw' !! L = Some (Some m) → m !! id = None) ∧
    DeleteVector id hnsw' = Ret (hnsw', None) ∧
    (nodes hnsw !! id = None →
     (∀ (L : nat) m, levels hnsw !! L = Some (Some m) → m !! id = None) →
     hnsw' = hnsw) ∧
    (∀ maxNeighbors maxLevels,
       reachable maxNeighbors maxLevels hnsw → nodes hnsw !! id = None → hnsw' = hnsw).
Proof.
  intros Hlen.
  pose proof (DeleteVector_Ret id hnsw Hlen) as Hdel.
  eexists. split; [exact Hdel|]. simpl.
  assert (nodes hnsw !! id = None →
          (∀ (L : nat) m, levels hnsw !! L = Some (Some m) → m !! id = None) →
          {| heap := heap hnsw; nodes := delete id (nodes hnsw);
             levels := delete_key id <$> levels hnsw;
             MaxNeighbors := MaxNeighbors hnsw; MaxLevels := MaxLevels hnsw |} = hnsw)
    as Hnoop.
  { intros Hid Hlevels. destruct hnsw as [h ns ls mn ml]. simpl in *. f_equal.
    - by apply delete_id.
    - rewrite <-(list_fmap_id ls) at 2. apply list_fmap_ext. intros L m HL. simpl.
      apply delete_key_absent. intros t ->. by eapply Hlevels. }
  split_and!.
  - apply lookup_delete_eq.
  - intros L m (m0 & _ & ->)%deleted_level_lookup. apply lookup_delete_eq.
  - rewrite DeleteVector_Ret by (simpl; by rewrite length_fmap). simpl.
    do 2 f_equal. f_equal; [apply delete_delete_eq|].
    rewrite <-list_fmap_compose. apply list_fmap_ext. intros L m _. simpl.
    apply delete_key_idemp.
  - done.
  - intros mn ml (_ & Hkeys & _)%reachable_inv Hid. apply Hnoop; [done|].
    intros L m HL. destruct (m !! id) as [p|] eqn:Hm; [|done].
    assert (id ∈ dom (nodes hnsw)) as [q Hq]%elem_of_dom by (by eapply (Hkeys L m id)).
    congruence.
Qed.

Lemma DeleteVector_always_nil_witness :
  ∃ hnsw',
    DeleteVector "b" index_abc = Ret (hnsw', None) ∧
    nodes hnsw' !! "b" = None ∧
    (∀ (L : nat) m, levels hnsw' !! L = Some (Some m) → m !! "b" = None) ∧
    DeleteVector "b" hnsw' = Ret (hnsw', None) ∧
    (nodes index_abc !! "b" = None →
     (∀ (L : nat) m, levels index_abc !! L = Some (Some m) → m !! "b" = None) →
     hnsw' = index_abc) ∧
    (∀ maxNeighbors maxLevels,
       reachable maxNeighbors maxLevels index_abc → nodes index_abc !! "b" = None →
       hnsw' = index_abc).
Proof.
  apply (DeleteVector_always_nil "b" index_abc). reflexivity.
Defined.

(** C7. In every index reachable from [NewHNSW(maxNeighbors, maxLevels)]
    with [maxNeighbors >= 0] and [maxLevels >= 1], every node stored in
    the flat table or in a level table has at most [maxNeighbors]
    neighbors, and its own [ID], the key it is stored under, is not among
    them. *)
Theorem Neighbors_bounded_without_self (maxNeighbors maxLevels : Z) (hnsw : HNSW) :
  reachable maxNeighbors maxLevels hnsw → 0 ≤ maxNeighbors → 1 ≤ maxLevels →
  (∀ id p, nodes hnsw !! id = Some p →
     ∃ n, heap hnsw !! p = Some n ∧ HNSWNode.ID n = id ∧
          Z.of_nat (length (HNSWNode.Neighbors n)) ≤ maxNeighbors ∧
          id ∉ HNSWNode.Neighbors n) ∧
  (∀ (L : nat) m id p, levels hnsw !! L = Some (Some m) → m !! id = Some p →
     ∃ n, heap hnsw !! p = Some n ∧ HNSWNode.ID n = id ∧
          Z.of_nat (length (HNSWNode.Neighbors n)) ≤ maxNeighbors ∧
          id ∉ HNSWNode.Neighbors n).
Proof.
  intros ([Hlen Hlev Hnodes Hnb Hsz] & _ & <- & _)%reachable_inv _ _. split.
  - intros id p Hp. destruct (Hnodes _ _ Hp) as (n & Hn & <-).
    destruct (Hnb _ _ Hn) as [? ?]. by exists n.
  - intros L m id p HL Hp. destruct (Hlev _ _ _ _ HL Hp) as (n & Hn & <-).
    destruct (Hnb _ _ Hn) as [? ?]. by exists n.
Qed.

Lemma Neighbors_bounded_without_self_witness :
  (∀ id p, nodes index_abc !! id = Some p →
     ∃ n, heap index_abc !! p = Some n ∧ HNSWNode.ID n = id ∧
          Z.of_nat (length (HNSWNode.Neighbors n)) ≤ 5 ∧
          id ∉ HNSWNode.Neighbors n) ∧
  (∀ (L : nat) m id p, levels index_abc !! L = Some (Some m) → m !! id = Some p →
     ∃ n, heap index_abc !! p = Some n ∧ HNSWNode.ID n = id ∧
          Z.of_nat (length (HNSWNode.Neighbors n)) ≤ 5 ∧
          id ∉ HNSWNode.Neighbors n).
Proof.
  apply (Neighbors_bounded_without_self 5 1 index_abc).
  - apply reachable_index_abc.
  - lia.
  - lia.
Defined.

(** C9. In every reachable index, every key of every level table is a key
    of the flat table, and the pointer stored there is to a node. So in
    [NearestNeighbors], for every candidate of a level, in the order the
    sort leaves them, the lookup [hnsw.nodes[candidate]] yields a node. *)
Theorem level_keys_in_flat_table (maxNeighbors maxLevels : Z) (hnsw : HNSW) :
  reachable maxNeighbors maxLevels hnsw →
  (∀ (L : nat) m id, levels hnsw !! L = Some (Some m) → is_Some (m !! id) →
     ∃ p n, nodes hnsw !! id = Some p ∧ heap hnsw !! p = Some n) ∧
  (∀ o query level (L : nat) m candidates distances sorted,
     fair o → levels hnsw !! L = Some m →
     NearestNeighbors_scan (heap hnsw) query (range_map o level m) [] []
       = Ret (candidates, distances) →
     SliceStable (λ _, less_distances distances) candidates = Ret sorted →
     ∀ c, c ∈ sorted → returns (deref_key hnsw c)).
Proof.
  intros (Hinv & Hkeys & _)%reachable_inv. split.
  - intros L m id HL Hid.
    assert (id ∈ dom (nodes hnsw)) as [p Hp]%elem_of_dom by (by eapply Hkeys).
    destruct (inv_nodes _ Hinv _ _ Hp) as (n & Hn & _). by exists p, n.
  - intros o query level L m candidates distances sorted Hfair HL Hscan Hsort c Hc.
    eapply candidates_in_nodes; [done..|].
    apply NearestNeighbors_scan_Ret in Hscan as Hscan'.
    destruct Hscan' as (ids & Hids & Hlen & _). simpl in Hids. subst candidates.
    destruct (SliceStable_distances distances ids) as (sorted' & Hsort' & Hperm); [done|].
    assert (sorted' = sorted) as -> by congruence. by rewrite <-Hperm.
Qed.

Lemma level_keys_in_flat_table_witness :
  (∀ (L : nat) m id, levels index_abc !! L = Some (Some m) → is_Some (m !! id) →
     ∃ p n, nodes index_abc !! id = Some p ∧ heap index_abc !! p = Some n) ∧
  (∀ o query level (L : nat) m candidates distances sorted,
     fair o → levels index_abc !! L = Some m →
     NearestNeighbors_scan (heap index_abc) query (range_map o level m) [] []
       = Ret (candidates, distances) →
     SliceStable (λ _, less_distances distances) candidates = Ret sorted →
     ∀ c, c ∈ sorted → returns (deref_key index_abc c)).
Proof.
  apply (level_keys_in_flat_table 5 1 index_abc). apply reachable_index_abc.
Defined.

(** * Further properties of the engine *)

(** ** What an insertion changes, exactly *)

(** The table of level [L] as a map: a [nil] table, like the table of a
    level that does not exist, holds no key. *)
Definition level_table (hnsw : HNSW) (L : nat) : gmap string nat :=
  default ∅ (default None (levels hnsw !! L)).

Lemma level_table_Some hnsw (L : nat) m :
  levels hnsw !! L = Some m → level_table hnsw L = default ∅ m.
Proof. unfold level_table. by intros ->. Qed.

Lemma addNodeToLevel_tables o p level hnsw hnsw' n :
  addNodeToLevel o p level hnsw = Ret hnsw' → heap hnsw !! p = Some n →
  (∀ L : nat, level_table hnsw' L =
     if decide (L = Z.to_nat level) then <[HNSWNode.ID n := p]> (level_table hnsw L)
     else level_table hnsw L) ∧
  (∀ q, q ≠ p → heap hnsw' !! q = heap hnsw !! q) ∧
  length (heap hnsw') = length (heap hnsw).
Proof.
  intros Hadd Hp.
  apply addNodeToLevel_Ret in Hadd as (m & n' & nbs & Hlevel & Hm & Hn & Hfind & ->).
  assert (n' = n) as -> by congruence. simpl. split_and!.
  - intros L. unfold level_table. simpl. case_decide as HL.
    + subst L. rewrite list_lookup_insert_eq by (by eapply lookup_lt_Some).
      by rewrite Hm.
    + by rewrite list_lookup_insert_ne.
  - intros q Hq. by rewrite list_lookup_insert_ne.
  - by rewrite length_insert.
Qed.

Lemma promote_Ret_top o p (k : nat) hnsw hnsw' top :
  promote o p k hnsw = Ret (hnsw', top) → 0 ≤ top ≤ Z.of_nat k.
Proof.
  revert hnsw. induction k as [|k IH]; intros hnsw Hpromote.
  - injection Hpromote as <- <-. lia.
  - cbn [promote] in Hpromote. destruct (flip o (Z.of_nat (S k))).
    + apply bind_Ret in Hpromote as (hnsw1 & _ & Hpromote).
      apply IH in Hpromote. lia.
    + injection Hpromote as <- <-. lia.
Qed.

Lemma promote_tables o p (k : nat) hnsw hnsw' top n :
  promote o p k hnsw = Ret (hnsw', top) → heap hnsw !! p = Some n →
  (∀ L : nat, level_table hnsw' L =
     if decide (top ≤ Z.of_nat L ∧ (L < k)%nat)
     then <[HNSWNode.ID n := p]> (level_table hnsw L)
     else level_table hnsw L) ∧
  (∀ q, q ≠ p → heap hnsw' !! q = heap hnsw !! q) ∧
  length (heap hnsw') = length (heap hnsw).
Proof.
  revert hnsw n. induction k as [|k IH]; intros hnsw n Hpromote Hp.
  - injection Hpromote as <- <-. split_and!; try done.
    intros L. case_decide; [lia|done].
  - cbn [promote] in Hpromote. destruct (flip o (Z.of_nat (S k))).
    + apply bind_Ret in Hpromote as (hnsw1 & Hadd & Hpromote).
      destruct (addNodeToLevel_tables _ _ _ _ _ _ Hadd Hp) as (Ht1 & Hh1 & Hl1).
      destruct (addNodeToLevel_frame _ _ _ _ _ _ Hadd Hp)
        as (_ & _ & _ & _ & _ & _ & _ & _ & (n1 & Hp1 & [= HID1 _] & _)).
      pose proof (promote_Ret_top _ _ _ _ _ _ Hpromote) as Htop.
      destruct (IH _ _ Hpromote Hp1) as (Ht2 & Hh2 & Hl2).
      rewrite HID1 in Ht2. split_and!.
      * intros L. rewrite Ht2, Ht1, Nat2Z.id.
        repeat case_decide; try lia; done.
      * intros q Hq. by rewrite Hh2, Hh1.
      * congruence.
    + injection Hpromote as <- <-. split_and!; try done.
      intros L. case_decide; [lia|done].
Qed.

Lemma AddVector_at_tables o id v hnsw hnsw' top :
  AddVector_at o id v hnsw = Ret (hnsw', top) →
  (∀ L : nat, level_table hnsw' L =
     if decide (top ≤ Z.of_nat L ≤ bottom hnsw)
     then <[id := length (heap hnsw)]> (level_table hnsw L)
     else level_table hnsw L) ∧
  (∀ q n, heap hnsw !! q = Some n → heap hnsw' !! q = Some n) ∧
  length (heap hnsw') = S (length (heap hnsw)).
Proof.
  intros Hadd.
  pose proof (AddVector_at_Ret _ _ _ _ _ _ Hadd) as (Htop & _).
  unfold AddVector_at in Hadd.
  apply bind_Ret in Hadd as (hnsw1 & Hadd1 & Hadd).
  apply bind_Ret in Hadd as ([hnsw2 top'] & Hpromote & Hadd).
  injection Hadd as <- <-.
  set (node0 := {| HNSWNode.ID := id; HNSWNode.Neighbors := []; HNSWNode.Vector := v |})
    in *.
  set (hnsw0 := with_heap (heap hnsw ++ [node0]) hnsw) in *.
  assert (heap hnsw0 !! length (heap hnsw) = Some node0) as Hp0.
  { simpl. by rewrite list_lookup_middle. }
  destruct (addNodeToLevel_tables _ _ _ _ _ _ Hadd1 Hp0) as (Ht1 & Hh1 & Hl1).
  destruct (addNodeToLevel_frame _ _ _ _ _ _ Hadd1 Hp0)
    as (_ & _ & _ & _ & _ & _ & _ & _ & (n1 & Hp1 & [= HID1 _] & _)).
  destruct (promote_tables _ _ _ _ _ _ _ Hpromote Hp1) as (Ht2 & Hh2 & Hl2).
  rewrite HID1 in Ht2. simpl in *. split_and!.
  - intros L. change (level_table (with_nodes _ hnsw2) L) with (level_table hnsw2 L).
    rewrite Ht2, Ht1.
    change (level_table hnsw0 L) with (level_table hnsw L).
    repeat case_decide; try lia; done.
  - intros q n Hq. pose proof (lookup_lt_Some _ _ _ Hq).
    rewrite Hh2, Hh1 by lia. by apply lookup_app_l_Some.
  - rewrite Hl2, Hl1, length_app. simpl. lia.
Qed.

(** X1. A completed [AddVector(id, vector)] changes the tables at [id]
    only. It sets [id] to the new node object in the flat table and in
    the table of every level from the shallowest level reached, [top],
    down to the bottom level, and leaves every other key of those tables,
    and the whole table of every level shallower than [top], as they
    were: an entry that an earlier insertion of the same [id] left at a
    shallower level stays there. The configuration is unchanged. *)
Theorem AddVector_changes_only_id (o : oracle) (id : string) (vector : Vector.t)
    (hnsw hnsw' : HNSW) :
  AddVector o id vector hnsw = Ret hnsw' →
  ∃ top,
    0 ≤ top ≤ bottom hnsw ∧
    nodes hnsw' = <[id := length (heap hnsw)]> (nodes hnsw) ∧
    (∀ L : nat, top ≤ Z.of_nat L ≤ bottom hnsw →
       level_table hnsw' L = <[id := length (heap hnsw)]> (level_table hnsw L)) ∧
    (∀ L : nat, ¬ top ≤ Z.of_nat L ≤ bottom hnsw →
       level_table hnsw' L = level_table hnsw L) ∧
    MaxNeighbors hnsw' = MaxNeighbors hnsw ∧ MaxLevels hnsw' = MaxLevels hnsw ∧
    length (levels hnsw') = length (levels hnsw).
Proof.
  intros [top Hadd]%AddVector_Ret.
  destruct (AddVector_at_Ret _ _ _ _ _ _ Hadd)
    as (Htop & _ & _ & Hnodes & Hmn & Hml & Hlen & _).
  destruct (AddVector_at_tables _ _ _ _ _ _ Hadd) as (Htables & _).
  exists top. split_and!; try done; try lia.
  - intros L HL. rewrite Htables. by case_decide.
  - intros L HL. rewrite Htables. by case_decide.
Qed.

Lemma AddVector_changes_only_id_witness :
  ∃ top,
    0 ≤ top ≤ bottom two_levels_a ∧
    nodes two_levels_ab = <["b" := length (heap two_levels_a)]> (nodes two_levels_a) ∧
    (∀ L : nat, top ≤ Z.of_nat L ≤ bottom two_levels_a →
       level_table two_levels_ab L
         = <["b" := length (heap two_levels_a)]> (level_table two_levels_a L)) ∧
    (∀ L : nat, ¬ top ≤ Z.of_nat L ≤ bottom two_levels_a →
       level_table two_levels_ab L = level_table two_levels_a L) ∧
    MaxNeighbors two_levels_ab = MaxNeighbors two_levels_a ∧
    MaxLevels two_levels_ab = MaxLevels two_levels_a ∧
    length (levels two_levels_ab) = length (levels two_levels_a).
Proof.
  apply (AddVector_changes_only_id (in_order true) "b" (point "b" 1)
           two_levels_a two_levels_ab).
  vm_compute. reflexivity.
Defined.

(** X2. A completed [AddVector] allocates one node object and writes to
    no other: every node object that existed before is as it was, so no
    existing node's [Neighbors] gains the inserted [id] (the links are
    one-directional). *)
Theorem AddVector_keeps_existing_nodes (o : oracle) (id : string) (vector : Vector.t)
    (hnsw hnsw' : HNSW) :
  AddVector o id vector hnsw = Ret hnsw' →
  length (heap hnsw') = S (length (heap hnsw)) ∧
  ∀ q n, heap hnsw !! q = Some n → heap hnsw' !! q = Some n.
Proof.
  intros [top Hadd]%AddVector_Ret.
  destruct (AddVector_at_tables _ _ _ _ _ _ Hadd) as (_ & Hheap & Hlen). by split.
Qed.

Lemma AddVector_keeps_existing_nodes_witness :
  length (heap two_levels_ab) = S (length (heap two_levels_a)) ∧
  ∀ q n, heap two_levels_a !! q = Some n → heap two_levels_ab !! q = Some n.
Proof.
  apply (AddVector_keeps_existing_nodes (in_order true) "b" (point "b" 1)
           two_levels_a two_levels_ab).
  vm_compute. reflexivity.
Defined.

(** ** What a deletion and an update change *)

Lemma DeleteVector_tables id hnsw hnsw' e :
  Z.of_nat (length (levels hnsw)) = MaxLevels hnsw →
  DeleteVector id hnsw = Ret (hnsw', e) →
  e = None ∧ heap hnsw' = heap hnsw ∧ nodes hnsw' = delete id (nodes hnsw) ∧
  MaxNeighbors hnsw' = MaxNeighbors hnsw ∧ MaxLevels hnsw' = MaxLevels hnsw ∧
  length (levels hnsw') = length (levels hnsw) ∧
  ∀ L : nat, level_table hnsw' L = delete id (level_table hnsw L).
Proof.
  intros Hlen. rewrite DeleteVector_Ret by done. intros [= <- <-]. simpl.
  split_and!; try done.
  - by rewrite length_fmap.
  - intros L. unfold level_table. simpl. rewrite list_lookup_fmap.
    destruct (levels hnsw !! L) as [[m|]|]; simpl; try done;
      by rewrite delete_empty.
Qed.



(** X4. [AddVector(id, vector)] followed by [DeleteVector(id)] leaves the
    tables as [DeleteVector(id)] alone would leave them, and so, when
    [id] was in no table, as they were; the node object that was
    allocated stays in the heap, referred to by no table. *)
Theorem AddVector_then_DeleteVector (o : oracle) (id : string) (vector : Vector.t)
    (hnsw hnsw1 : HNSW) :
  Z.of_nat (length (levels hnsw)) = MaxLevels hnsw →
  AddVector o id vector hnsw = Ret hnsw1 →
  ∃ hnsw2,
    DeleteVector id hnsw1 = Ret (hnsw2, None) ∧
    nodes hnsw2 = delete id (nodes hnsw) ∧
    (∀ L : nat, level_table hnsw2 L = delete id (level_table hnsw L)) ∧
    (nodes hnsw !! id = None → (∀ L : nat, level_table hnsw L !! id = None) →
       nodes hnsw2 = nodes hnsw ∧ ∀ L : nat, level_table hnsw2 L = level_table hnsw L) ∧
    length (heap hnsw2) = S (length (heap hnsw)).
Proof.
  intros Hlen [top Hadd]%AddVector_Ret.
  destruct (AddVector_at_Ret _ _ _ _ _ _ Hadd)
    as (_ & _ & _ & Hnodes1 & _ & Hml1 & Hlen1 & _).
  destruct (AddVector_at_tables _ _ _ _ _ _ Hadd) as (Htables1 & _ & Hheap1).
  assert (Z.of_nat (length (levels hnsw1)) = MaxLevels hnsw1) as Hwf1 by congruence.
  pose proof (DeleteVector_Ret id hnsw1 Hwf1) as Hdel.
  destruct (DeleteVector_tables _ _ _ _ Hwf1 Hdel)
    as (_ & Hheap2 & Hnodes2 & _ & _ & _ & Htables2).
  assert (∀ L : nat,
            delete id (level_table hnsw1 L) = delete id (level_table hnsw L)) as Hsame.
  { intros L. rewrite Htables1. case_decide; [|done]. apply delete_insert_eq. }
  eexists. split; [exact Hdel|]. split_and!.
  - rewrite Hnodes2, Hnodes1. apply delete_insert_eq.
  - intros L. by rewrite Htables2.
  - intros Hid Hlevels. split.
    + rewrite Hnodes2, Hnodes1, delete_insert_eq. by apply delete_id.
    + intros L. rewrite Htables2, Hsame. by apply delete_id.
  - by rewrite Hheap2.
Qed.

Lemma AddVector_then_DeleteVector_witness :
  ∃ hnsw2,
    DeleteVector "b" two_levels_ab = Ret (hnsw2, None) ∧
    nodes hnsw2 = delete "b" (nodes two_levels_a) ∧
    (∀ L : nat, level_table hnsw2 L = delete "b" (level_table two_levels_a L)) ∧
    (nodes two_levels_a !! "b" = None →
     (∀ L : nat, level_table two_levels_a L !! "b" = None) →
       nodes hnsw2 = nodes two_levels_a ∧
       ∀ L : nat, level_table hnsw2 L = level_table two_levels_a L) ∧
    length (heap hnsw2) = S (length (heap two_levels_a)).
Proof.
  apply (AddVector_then_DeleteVector (in_order true) "b" (point "b" 1)
           two_levels_a two_levels_ab).
  - reflexivity.
  - vm_compute. reflexivity.
Defined.

(** X5. An [UpdateVector(id, newVector)] that returns [nil] keeps the keys
    of the flat table: [id] now maps to a new node object, every other key
    maps to the node it mapped to, in the flat table and in every level
    table, and every node object that existed is as it was. *)
Theorem UpdateVector_keeps_other_keys (o : oracle) (id : string) (newVector : Vector.t)
    (hnsw hnsw' : HNSW) :
  Z.of_nat (length (levels hnsw)) = MaxLevels hnsw →
  UpdateVector o id newVector hnsw = Ret (hnsw', None) →
  is_Some (nodes hnsw !! id) ∧
  nodes hnsw' = <[id := length (heap hnsw)]> (nodes hnsw) ∧
  dom (nodes hnsw') = dom (nodes hnsw) ∧
  (∀ (L : nat) id', id' ≠ id →
     level_table hnsw' L !! id' = level_table hnsw L !! id') ∧
  (∀ q n, heap hnsw !! q = Some n → heap hnsw' !! q = Some n).
Proof.
  intros Hlen Hupd. unfold UpdateVector in Hupd.
  destruct (nodes hnsw !! id) as [p|] eqn:Hid; [|done].
  apply bind_Ret in Hupd as ([hnsw1 e1] & Hdel & Hupd).
  apply bind_Ret in Hupd as (hnsw2 & Hadd & Hupd). injection Hupd as <-.
  destruct (DeleteVector_tables _ _ _ _ Hlen Hdel)
    as (_ & Hheap1 & Hnodes1 & _ & _ & _ & Htables1).
  apply AddVector_Ret in Hadd as [top Hadd].
  destruct (AddVector_at_Ret _ _ _ _ _ _ Hadd) as (_ & _ & _ & Hnodes2 & _).
  destruct (AddVector_at_tables _ _ _ _ _ _ Hadd) as (Htables2 & Hheap2 & _).
  rewrite Hheap1 in *.
  assert (nodes hnsw2 = <[id := length (heap hnsw)]> (nodes hnsw)) as Hnodes.
  { rewrite Hnodes2, Hnodes1. apply insert_delete_eq. }
  split_and!.
  - done.
  - done.
  - rewrite Hnodes, dom_insert_L. apply elem_of_dom_2 in Hid.
    apply subseteq_union_1_L. by apply singleton_subseteq_l.
  - intros L id' Hne. rewrite Htables2. case_decide.
    + rewrite lookup_insert_ne by done. rewrite Htables1. by apply lookup_delete_ne.
    + rewrite Htables1. by apply lookup_delete_ne.
  - done.
Qed.

(** [index_abc] after [UpdateVector("b", (7, 0))]. *)
Definition index_abc_updated : HNSW :=
  {| heap := [node "a" [] (point "a" 10); node "b" ["a"] (point "b" 1);
              node "c" ["b"; "a"] (point "c" 5); node "b" ["c"; "a"] (point "b2" 7)];
     nodes := <["b" := 3%nat]> table_abc;
     levels := [Some (<["b" := 3%nat]> table_abc)];
     MaxNeighbors := 5;
     MaxLevels := 1 |}.

Lemma UpdateVector_keeps_other_keys_witness :
  is_Some (nodes index_abc !! "b") ∧
  nodes index_abc_updated = <["b" := length (heap index_abc)]> (nodes index_abc) ∧
  dom (nodes index_abc_updated) = dom (nodes index_abc) ∧
  (∀ (L : nat) id', id' ≠ "b" →
     level_table index_abc_updated L !! id' = level_table index_abc L !! id') ∧
  (∀ q n, heap index_abc !! q = Some n → heap index_abc_updated !! q = Some n).
Proof.
  apply (UpdateVector_keeps_other_keys (in_order false) "b" (point "b2" 7)
           index_abc index_abc_updated).
  - reflexivity.
  - vm_compute. reflexivity.
Defined.

(** ** Two more invariants of reachable indexes *)

(** The bottom-level table is the flat table, and a key of the table of a
    level is a key of the table of every deeper level. *)
Definition tables_aligned (hnsw : HNSW) : Prop :=
  (1 ≤ MaxLevels hnsw →
     level_table hnsw (Z.to_nat (MaxLevels hnsw - 1)) = nodes hnsw) ∧
  (∀ (L L' : nat) id,
     (L ≤ L')%nat → Z.of_nat L' < MaxLevels hnsw →
     is_Some (level_table hnsw L !! id) → is_Some (level_table hnsw L' !! id)).

Lemma NewHNSW_aligned maxNeighbors maxLevels hnsw :
  NewHNSW maxNeighbors maxLevels = Ret hnsw → tables_aligned hnsw.
Proof.
  intros [Hml ->]%NewHNSW_Ret.
  assert (∀ L : nat,
            level_table {| heap := []; nodes := ∅;
                           levels := replicate (Z.to_nat maxLevels) None;
                           MaxNeighbors := maxNeighbors; MaxLevels := maxLevels |} L = ∅)
    as Hempty.
  { intros L. unfold level_table. simpl.
    destruct (replicate (Z.to_nat maxLevels) None !! L) as [m|] eqn:HL; [|done].
    by apply lookup_replicate in HL as [-> _]. }
  split.
  - intros _. by rewrite Hempty.
  - intros L L' id _ _. rewrite Hempty, lookup_empty. by intros [? ?].
Qed.

Lemma AddVector_at_aligned o id v hnsw hnsw' top :
  inv hnsw → tables_aligned hnsw →
  AddVector_at o id v hnsw = Ret (hnsw', top) → tables_aligned hnsw'.
Proof.
  intros Hinv [Hflat Hdeep] Hadd.
  destruct (AddVector_at_Ret _ _ _ _ _ _ Hadd)
    as (Htop & _ & _ & Hnodes & _ & Hml & _).
  destruct (AddVector_at_tables _ _ _ _ _ _ Hadd) as (Htables & _).
  rewrite (bottom_inv _ Hinv) in Htop, Htables. unfold tables_aligned.
  rewrite Hml. split.
  - intros Hml1. rewrite Htables, Hnodes.
    case_decide; [|lia]. by rewrite Hflat.
  - intros L L' k HLL HL'. rewrite !Htables.
    repeat case_decide; try lia.
    + intros [->|[Hne Hk]]%lookup_insert_is_Some.
      * rewrite lookup_insert_eq. by eexists.
      * rewrite lookup_insert_ne by done. by eapply Hdeep.
    + intros Hk. destruct (decide (id = k)) as [->|Hne].
      * rewrite lookup_insert_eq. by eexists.
      * rewrite lookup_insert_ne by done. by eapply Hdeep.
    + by apply Hdeep.
Qed.

Lemma DeleteVector_aligned id hnsw hnsw' e :
  inv hnsw → tables_aligned hnsw →
  DeleteVector id hnsw = Ret (hnsw', e) → tables_aligned hnsw'.
Proof.
  intros Hinv [Hflat Hdeep] Hdel.
  destruct (DeleteVector_tables _ _ _ _ (inv_levels _ Hinv) Hdel)
    as (_ & _ & Hnodes & _ & Hml & _ & Htables).
  unfold tables_aligned. rewrite Hml. split.
  - intros Hml1. by rewrite Htables, Hnodes, Hflat.
  - intros L L' k HLL HL'. rewrite !Htables.
    intros [Hne Hk]%lookup_delete_is_Some. apply lookup_delete_is_Some.
    split; [done|]. by eapply Hdeep.
Qed.

Lemma reachable_aligned maxNeighbors maxLevels hnsw :
  reachable maxNeighbors maxLevels hnsw → tables_aligned hnsw.
Proof.
  induction 1 as [hnsw Hnew|o id v hnsw hnsw' Hreach IH Hfair Hadd
                  |o id v hnsw hnsw' e Hreach IH Hfair Hupd|id hnsw hnsw' e Hreach IH Hdel].
  - by eapply NewHNSW_aligned.
  - apply reachable_inv in Hreach as (Hinv & _).
    apply AddVector_Ret in Hadd as [top Hadd].
    exact (AddVector_at_aligned _ _ _ _ _ _ Hinv IH Hadd).
  - apply reachable_inv in Hreach as (Hinv & Hkeys & _).
    unfold UpdateVector in Hupd. destruct (nodes hnsw !! id) as [p|]; [|by simplify_eq].
    apply bind_Ret in Hupd as ([hnsw1 e1] & Hdel & Hupd).
    apply bind_Ret in Hupd as (hnsw2 & Hadd & Hupd). injection Hupd as <- <-.
    destruct (DeleteVector_inv _ _ _ _ Hinv Hkeys Hdel) as [Hinv1 _].
    apply AddVector_Ret in Hadd as [top Hadd].
    eapply AddVector_at_aligned; [exact Hinv1| |exact Hadd].
    exact (DeleteVector_aligned _ _ _ _ Hinv IH Hdel).
  - apply reachable_inv in Hreach as (Hinv & _).
    exact (DeleteVector_aligned _ _ _ _ Hinv IH Hdel).
Qed.

(** X6. In every index reachable from [NewHNSW(maxNeighbors, maxLevels)]
    with [maxLevels >= 1], the table of the bottom level is the flat
    table: the same keys, each with the same node object. *)
Theorem bottom_table_is_flat_table (maxNeighbors maxLevels : Z) (hnsw : HNSW) :
  reachable maxNeighbors maxLevels hnsw → 1 ≤ maxLevels →
  level_table hnsw (Z.to_nat (maxLevels - 1)) = nodes hnsw.
Proof.
  intros Hreach Hml. pose proof (reachable_aligned _ _ _ Hreach) as [Hflat _].
  apply reachable_inv in Hreach as (_ & _ & _ & <- & _). by apply Hflat.
Qed.

Lemma bottom_table_is_flat_table_witness :
  level_table index_abc (Z.to_nat (1 - 1)) = nodes index_abc.
Proof.
  apply (bottom_table_is_flat_table 5 1 index_abc).
  - apply reachable_index_abc.
  - lia.
Defined.

(** X7. In every reachable index, a key of the table of a level is a key
    of the table of every deeper level, down to the bottom one: the
    levels at which an [id] is present are contiguous from the bottom. *)
Theorem levels_of_id_contiguous (maxNeighbors maxLevels : Z) (hnsw : HNSW)
    (L L' : nat) (id : string) :
  reachable maxNeighbors maxLevels hnsw →
  (L ≤ L')%nat → Z.of_nat L' < maxLevels →
  is_Some (level_table hnsw L !! id) → is_Some (level_table hnsw L' !! id).
Proof.
  intros Hreach HLL HL'. pose proof (reachable_aligned _ _ _ Hreach) as [_ Hdeep].
  apply reachable_inv in Hreach as (_ & _ & _ & <- & _). by apply Hdeep.
Qed.

Lemma reachable_two_levels_ab : reachable 5 2 two_levels_ab.
Proof.
  pose proof two_levels_a_Ret as Hrun.
  apply bind_Ret in Hrun as (h0 & H0 & H1).
  eapply reach_AddVector; [|apply (fair_in_order true)|exact two_levels_ab_Ret].
  eapply reach_AddVector; [|apply (fair_in_order false)|exact H1].
  by apply reach_NewHNSW.
Qed.

Lemma levels_of_id_contiguous_witness :
  is_Some (level_table two_levels_ab 1 !! "b").
Proof.
  apply (levels_of_id_contiguous 5 2 two_levels_ab 0 1 "b").
  - apply reachable_two_levels_ab.
  - lia.
  - lia.
  - vm_compute. by eexists.
Defined.

(** ** What [findNeighbors] selects *)

(** The scan keeps exactly the keys other than the node's own [ID], in
    the order visited. *)
Lemma findNeighbors_scan_filter h node n entries nb0 ds0 nb ds :
  h !! node = Some n →
  findNeighbors_scan h node entries nb0 ds0 = Ret (nb, ds) →
  nb = nb0 ++ filter (λ id, HNSWNode.ID n ≠ id) entries.*1 ∧
  length ds = (length ds0 + length (filter (λ id, HNSWNode.ID n ≠ id) entries.*1))%nat.
Proof.
  intros Hnode. revert nb0 ds0.
  induction entries as [|[id q] entries IH]; intros nb0 ds0 Hscan.
  - injection Hscan as <- <-. simpl. rewrite app_nil_r. split; [done|lia].
  - cbn [findNeighbors_scan] in Hscan. rewrite (deref_Some _ _ _ Hnode) in Hscan.
    simpl in Hscan. rewrite fmap_cons, filter_cons. simpl.
    destruct (decide (HNSWNode.ID n = id)) as [Heq|Hne].
    + rewrite decide_False by (by intros ?). by apply IH.
    + rewrite decide_True by done.
      apply bind_Ret in Hscan as (other & _ & Hscan).
      apply bind_Ret in Hscan as (dist & _ & Hscan).
      destruct (IH _ _ Hscan) as [-> Hlen]. rewrite <-app_assoc. split; [done|].
      rewrite Hlen, length_app. simpl. lia.
Qed.

Lemma truncate_take {A} (s s' : list A) (k : Z) :
  (if Z.of_nat (length s) >? k then slice_to s k else Ret s) = Ret s' →
  0 ≤ k ∧ s' = take (Z.to_nat k) s.
Proof.
  rewrite Z.gtb_ltb. destruct (Z.ltb_spec k (Z.of_nat (length s))).
  - unfold slice_to. case_match eqn:Hk; [|done]. intros [= <-].
    apply andb_prop in Hk as [?%Z.leb_le ?%Z.leb_le]. split; [lia|done].
  - intros [= <-]. split; [lia|]. rewrite take_ge; [done|lia].
Qed.

(** The keys of a table other than [k] are as many as the entries of the
    table without [k]. *)
Lemma other_keys_length (k : string) (m : gmap string nat) :
  length (filter (λ id, k ≠ id) (map_to_list m).*1) = size (delete k m).
Proof.
  induction m as [|i x m Hi Hfirst IH] using map_first_key_ind.
  - by rewrite delete_empty, map_to_list_empty, map_size_empty.
  - rewrite map_to_list_insert_first_key by done.
    rewrite fmap_cons, filter_cons. simpl. destruct (decide (k = i)) as [->|Hne].
    + rewrite decide_False by (by intros ?).
      rewrite delete_insert_eq. rewrite IH. by rewrite delete_id.
    + rewrite decide_True by done. simpl. rewrite IH.
      rewrite delete_insert_ne by done.
      rewrite map_size_insert_None; [done|]. by rewrite lookup_delete_ne.
Qed.

(** X8. What [findNeighbors(node, level)] returns when it returns: ids
    without repetition, each a key of the table of [level] other than
    the node's own [ID], and as many of them as [MaxNeighbors] allows,
    that is, the smaller of [MaxNeighbors] and the number of other keys
    of that table. *)
Theorem findNeighbors_selects (o : oracle) (hnsw : HNSW) (node : nat) (level : Z)
    (n : HNSWNode.t) (neighbors : list string) :
  fair o → heap hnsw !! node = Some n →
  findNeighbors o hnsw node level = Ret neighbors →
  NoDup neighbors ∧
  (∀ id, id ∈ neighbors →
     id ≠ HNSWNode.ID n ∧ is_Some (level_table hnsw (Z.to_nat level) !! id)) ∧
  Z.of_nat (length neighbors)
  = Z.min (MaxNeighbors hnsw)
          (Z.of_nat (size (delete (HNSWNode.ID n) (level_table hnsw (Z.to_nat level))))).
Proof.
  intros Hfair Hnode Hfind. unfold findNeighbors in Hfind.
  apply bind_Ret in Hfind as (m & Hm & Hfind).
  apply bind_Ret in Hfind as ([nb ds] & Hscan & Hfind).
  apply bind_Ret in Hfind as (sorted & Hsort & Hfind).
  apply index_Ret_inv in Hm as [Hlevel Hm].
  rewrite (level_table_Some _ _ _ Hm).
  destruct (findNeighbors_scan_filter _ _ _ _ _ _ _ _ Hnode Hscan) as [Hnb Hlen].
  simpl in Hnb, Hlen. subst nb.
  destruct (SliceStable_distances ds
              (filter (λ id, HNSWNode.ID n ≠ id) (range_map o level m).*1))
    as (sorted' & Hsort' & Hperm); [done|].
  rewrite Hsort in Hsort'. injection Hsort' as <-.
  apply truncate_take in Hfind as [Hmax ->].
  assert ((range_map o level m).*1 ≡ₚ (map_to_list (default ∅ m)).*1) as Hkeys.
  { unfold range_map. by rewrite (Hfair level _). }
  split_and!.
  - eapply sublist_NoDup; [|apply sublist_take]. rewrite Hperm, Hkeys.
    apply NoDup_filter, NoDup_fst_map_to_list.
  - intros id Hid%subseteq_take. rewrite Hperm in Hid.
    apply list_elem_of_filter in Hid as [Hne Hid]. split; [done|].
    apply list_elem_of_fmap in Hid as ([id' q] & -> & Hin).
    apply elem_of_range_map in Hin; [|done]. by exists q.
  - rewrite length_take, (Permutation_length Hperm), Hkeys, other_keys_length. lia.
Qed.

Lemma findNeighbors_selects_witness :
  NoDup ["b"; "a"] ∧
  (∀ id : string, id ∈ ["b"; "a"] →
     id ≠ "c" ∧ is_Some (level_table index_abc (Z.to_nat 0) !! id)) ∧
  Z.of_nat (length ["b"; "a"])
  = Z.min 5 (Z.of_nat (size (delete "c" (level_table index_abc (Z.to_nat 0))))).
Proof.
  apply (findNeighbors_selects (in_order false) index_abc 2 0
           (node "c" ["b"; "a"] (point "c" 5)) ["b"; "a"]).
  - apply fair_in_order.
  - reflexivity.
  - vm_compute. reflexivity.
Defined.

(** ** What [NearestNeighbors] returns *)

(** The flat table has [id], and the node it points to holds [v]. *)
Definition stored (hnsw : HNSW) (id : string) (v : Vector.t) : Prop :=
  ∃ p n, nodes hnsw !! id = Some p ∧ heap hnsw !! p = Some n ∧ HNSWNode.Vector n = v.

Lemma deref_key_stored hnsw id n :
  deref_key hnsw id = Ret n → stored hnsw id (HNSWNode.Vector n).
Proof.
  unfold deref_key. destruct (nodes hnsw !! id) as [p|] eqn:Hp; [|done].
  intros Hn%deref_Ret. by exists p, n.
Qed.

(** The loop over [i] appends the vectors that the flat table holds for
    the candidates it passes, in their order. *)
Lemma NearestNeighbors_take_loop_Ret hnsw candidates distances (cnt lo : nat) bn bd bn' bd' :
  for_range (NearestNeighbors_take hnsw candidates distances) (Z.of_nat lo) cnt (bn, bd)
    = Ret (bn', bd') →
  ∃ vs, bn' = bn ++ vs ∧ Forall2 (stored hnsw) (take cnt (drop lo candidates)) vs.
Proof.
  revert lo bn bd. induction cnt as [|cnt IH]; intros lo bn bd Hloop.
  - injection Hloop as <- <-. exists []. by rewrite app_nil_r.
  - cbn [for_range] in Hloop. rewrite NearestNeighbors_take_eq in Hloop.
    apply bind_Ret in Hloop as ([bn1 bd1] & Hbody & Hloop).
    apply bind_Ret in Hbody as (c & [_ Hc]%index_Ret_inv & Hbody).
    apply bind_Ret in Hbody as (n & Hn%deref_key_stored & Hbody).
    apply bind_Ret in Hbody as (d & _ & Hbody). injection Hbody as <- <-.
    replace (Z.of_nat lo + 1) with (Z.of_nat (S lo)) in Hloop by lia.
    destruct (IH _ _ _ Hloop) as (vs & -> & Hvs).
    exists (HNSWNode.Vector n :: vs). rewrite <-app_assoc. split; [done|].
    rewrite Nat2Z.id in Hc. rewrite (drop_S _ _ _ Hc). simpl. by constructor.
Qed.

Lemma take_to_nat_min {A} (l : list A) (k : Z) :
  take (Z.to_nat (Z.min k (Z.of_nat (length l)))) l = take (Z.to_nat k) l.
Proof.
  destruct (Z.le_gt_cases k (Z.of_nat (length l))).
  - by rewrite Z.min_l.
  - rewrite Z.min_r, Nat2Z.id by lia. rewrite !take_ge; [done|lia|lia].
Qed.

(** One turn of the loop over the levels: the candidates are the [ID]s of
    the nodes of the level's table, and the vectors appended are those the
    flat table holds for the first [k] candidates as the sort left them. *)
Lemma NearestNeighbors_level_Ret o hnsw query k level bn bd bn' bd' :
  NearestNeighbors_level o hnsw query k level (bn, bd) = Ret (bn', bd') →
  ∃ m candidates distances sorted vs,
    levels hnsw !! Z.to_nat level = Some m ∧
    NearestNeighbors_scan (heap hnsw) query (range_map o level m) [] []
      = Ret (candidates, distances) ∧
    sorted ≡ₚ candidates ∧ bn' = bn ++ vs ∧
    Forall2 (stored hnsw) (take (Z.to_nat k) sorted) vs.
Proof.
  unfold NearestNeighbors_level. intros Hlevel.
  apply bind_Ret in Hlevel as (m & [_ Hm]%index_Ret_inv & Hlevel).
  apply bind_Ret in Hlevel as ([c d] & Hscan & Hlevel).
  apply bind_Ret in Hlevel as (sorted & Hsort & Hlevel).
  pose proof Hscan as (ids & Hc & Hlen & _)%NearestNeighbors_scan_Ret.
  simpl in Hc, Hlen. subst c.
  destruct (SliceStable_distances d ids) as (sorted' & Hsort' & Hperm); [done|].
  rewrite Hsort in Hsort'. injection Hsort' as <-.
  apply (NearestNeighbors_take_loop_Ret _ _ _ _ 0%nat) in Hlevel as (vs & -> & Hvs).
  rewrite drop_0, take_to_nat_min in Hvs.
  by exists m, ids, d, sorted, vs.
Qed.

Lemma NearestNeighbors_loop_Ret o hnsw query k hi (cnt : nat) bn bd bn' bd' :
  for_down (NearestNeighbors_level o hnsw query k) hi cnt (bn, bd) = Ret (bn', bd') →
  ∃ ext, bn' = bn ++ ext ∧ Forall (λ v, ∃ id, stored hnsw id v) ext.
Proof.
  revert hi bn bd. induction cnt as [|cnt IH]; intros hi bn bd Hloop.
  - injection Hloop as <- <-. exists []. by rewrite app_nil_r.
  - cbn [for_down] in Hloop.
    apply bind_Ret in Hloop as ([bn1 bd1] & Hlevel & Hloop).
    apply NearestNeighbors_level_Ret in Hlevel as (m & c & d & sorted & vs & _ & _ & _ & -> & Hvs).
    destruct (IH _ _ _ Hloop) as (ext & -> & Hext).
    exists (vs ++ ext). rewrite <-app_assoc. split; [done|].
    apply Forall_app. split; [|done].
    clear -Hvs. induction Hvs as [|id v ids vs Hv _ IH]; constructor; [by exists id|done].
Qed.

(** X9. Every vector that [NearestNeighbors] returns is one the flat
    table holds: it is the [Vector] of the node that [hnsw.nodes] has
    under some id. This holds of every index, whatever its state. *)
Theorem NearestNeighbors_returns_stored_vectors (o : oracle) (hnsw : HNSW)
    (query : Vector.t) (k : Z) (r : list Vector.t) (v : Vector.t) :
  NearestNeighbors o hnsw query k = Ret r → v ∈ r → ∃ id, stored hnsw id v.
Proof.
  unfold NearestNeighbors. intros Hnn Hv.
  apply bind_Ret in Hnn as ([bn bd] & Hloop & Hnn).
  apply truncate_Ret in Hnn as [_ Hsub]. apply Hsub in Hv.
  apply NearestNeighbors_loop_Ret in Hloop as (ext & Hbn & Hext).
  simpl in Hbn. subst bn. rewrite Forall_forall in Hext. by apply Hext.
Qed.

Lemma NearestNeighbors_returns_stored_vectors_witness :
  ∃ id, stored index_abc id (point "c" 5).
Proof.
  apply (NearestNeighbors_returns_stored_vectors (in_order false) index_abc origin 2
           [point "c" 5; point "b" 1] (point "c" 5)).
  - vm_compute. reflexivity.
  - left.
Defined.

(** When every pointer of the table scanned is to a node whose [ID] is the
    key it is stored under, the candidates are the keys, in the order
    visited. *)
Lemma NearestNeighbors_scan_keys h query entries c0 d0 c d :
  (∀ key p n, (key, p) ∈ entries → h !! p = Some n → HNSWNode.ID n = key) →
  NearestNeighbors_scan h query entries c0 d0 = Ret (c, d) → c = c0 ++ entries.*1.
Proof.
  revert c0 d0. induction entries as [|[key p] entries IH]; intros c0 d0 Hkeys Hscan.
  - injection Hscan as <- <-. by rewrite app_nil_r.
  - cbn [NearestNeighbors_scan] in Hscan.
    apply bind_Ret in Hscan as (n & Hn%deref_Ret & Hscan).
    apply bind_Ret in Hscan as (dist & _ & Hscan).
    rewrite (Hkeys key p n) in Hscan; [|by left|done].
    apply IH in Hscan.
    + by rewrite Hscan, <-app_assoc.
    + intros key' p' n' Hin. apply Hkeys. by right.
Qed.

(** X10. On a reachable index none of whose stored vectors has fewer
    values than the query, [NearestNeighbors(query, k)] with [k] at most
    the number of ids in the flat table returns exactly [k] vectors, and
    they are the vectors the flat table holds for [k] distinct ids: the
    copies that the upper levels would add are cut off. *)
Theorem NearestNeighbors_k_distinct_ids (maxNeighbors maxLevels : Z) (o : oracle)
    (hnsw : HNSW) (query : Vector.t) (k : Z) :
  reachable maxNeighbors maxLevels hnsw → fair o → fits query hnsw →
  0 ≤ k ≤ Z.of_nat (size (nodes hnsw)) →
  ∃ ids r, NearestNeighbors o hnsw query k = Ret r ∧
           NoDup ids ∧ Forall2 (stored hnsw) ids r ∧ Z.of_nat (length r) = k.
Proof.
  intros Hreach Hfair Hfits Hk.
  pose proof (reachable_aligned _ _ _ Hreach) as [Hflat _].
  apply reachable_inv in Hreach as (Hinv & Hkeys & _ & Hml & Hpop).
  destruct (NearestNeighbors_returns o hnsw query k) as [r Hr]; [done..|lia|].
  pose proof Hr as Hnn. unfold NearestNeighbors in Hnn.
  apply bind_Ret in Hnn as ([bn bd] & Hloop & Hnn).
  apply truncate_take in Hnn as [_ ->].
  destruct (decide (k = 0)) as [->|Hk0].
  { exists [], []. rewrite Hr. change (Z.to_nat 0) with 0%nat. rewrite take_0.
    split_and!; [done|constructor|constructor|done]. }
  destruct Hpop as [Hempty|[_ Hml1]].
  { rewrite Hempty, map_size_empty in Hk. lia. }
  rewrite (bottom_inv _ Hinv), Hml in Hloop.
  replace (Z.to_nat (maxLevels - 1 + 1)) with (S (Z.to_nat (maxLevels - 1))) in Hloop by lia.
  cbn [for_down] in Hloop.
  apply bind_Ret in Hloop as ([bn1 bd1] & Hlevel & Hloop).
  apply NearestNeighbors_level_Ret in Hlevel
    as (m & c & d & sorted & vs & Hm & Hscan & Hperm & Hbn1 & Hvs).
  simpl in Hbn1. subst bn1.
  apply NearestNeighbors_loop_Ret in Hloop as (ext & -> & _).
  apply NearestNeighbors_scan_keys in Hscan; simpl in Hscan.
  2:{ intros key p n Hin Hn. apply elem_of_range_map in Hin; [|done].
      destruct m as [t|]; simpl in Hin; [|done].
      destruct (inv_level_nodes _ Hinv _ _ _ _ Hm Hin) as (n' & Hn' & HID). congruence. }
  assert (default ∅ m = nodes hnsw) as Htable.
  { rewrite <-(level_table_Some _ _ _ Hm). rewrite <-Hml in *. by apply Hflat. }
  assert (sorted ≡ₚ (map_to_list (nodes hnsw)).*1) as Hsorted.
  { rewrite Hperm, Hscan. unfold range_map. by rewrite (Hfair _ _), Htable. }
  assert (length sorted = size (nodes hnsw)) as Hlen.
  { by rewrite (Permutation_length Hsorted), length_fmap, length_map_to_list. }
  assert (length vs = Z.to_nat k) as Hvslen.
  { rewrite <-(Forall2_length _ _ _ Hvs), length_take. lia. }
  exists (take (Z.to_nat k) sorted), vs. rewrite Hr.
  rewrite take_app_le by lia. rewrite take_ge by lia.
  split_and!; [done| |done|lia].
  eapply sublist_NoDup; [|apply sublist_take]. rewrite Hsorted.
  apply NoDup_fst_map_to_list.
Qed.

Lemma NearestNeighbors_k_distinct_ids_witness :
  ∃ ids r, NearestNeighbors (in_order false) index_abc origin 2 = Ret r ∧
           NoDup ids ∧ Forall2 (stored index_abc) ids r ∧ Z.of_nat (length r) = 2.
Proof.
  apply (NearestNeighbors_k_distinct_ids 5 1 (in_order false) index_abc origin 2).
  - apply reachable_index_abc.
  - apply fair_in_order.
  - apply fits_index_abc. simpl. lia.
  - vm_compute. split; discriminate.
Defined.

(** ** How many vectors [NearestNeighbors] returns *)

Lemma NearestNeighbors_scan_length h query entries c0 d0 c d :
  NearestNeighbors_scan h query entries c0 d0 = Ret (c, d) →
  length c = (length c0 + length entries)%nat.
Proof.
  revert c0 d0. induction entries as [|[key p] entries IH]; intros c0 d0 Hscan.
  - injection Hscan as <- <-. simpl. lia.
  - cbn [NearestNeighbors_scan] in Hscan.
    apply bind_Ret in Hscan as (n & _ & Hscan).
    apply bind_Ret in Hscan as (dist & _ & Hscan).
    rewrite (IH _ _ Hscan), length_app. simpl. lia.
Qed.

(** What the turn of level [L] contributes: the smaller of [k] and the
    number of entries of the level's table. *)
Definition level_yield (hnsw : HNSW) (k : Z) (L : nat) : nat :=
  Z.to_nat k `min` size (level_table hnsw L).

Lemma NearestNeighbors_level_length o hnsw query k (L : nat) bn bd bn' bd' :
  fair o →
  NearestNeighbors_level o hnsw query k (Z.of_nat L) (bn, bd) = Ret (bn', bd') →
  length bn' = (length bn + level_yield hnsw k L)%nat.
Proof.
  intros Hfair
    (m & c & d & sorted & vs & Hm & Hscan & Hperm & -> & Hvs)%NearestNeighbors_level_Ret.
  rewrite Nat2Z.id in Hm. apply NearestNeighbors_scan_length in Hscan.
  rewrite length_app, <-(Forall2_length _ _ _ Hvs), length_take.
  rewrite (Permutation_length Hperm), Hscan. simpl.
  unfold range_map. rewrite (Permutation_length (Hfair _ _)), length_map_to_list.
  unfold level_yield. by rewrite (level_table_Some _ _ _ Hm).
Qed.

Lemma NearestNeighbors_loop_length o hnsw query k (cnt : nat) bn bd bn' bd' :
  fair o →
  for_down (NearestNeighbors_level o hnsw query k) (Z.of_nat cnt - 1) cnt (bn, bd)
    = Ret (bn', bd') →
  length bn' = (length bn + sum_list_with (level_yield hnsw k) (seq 0 cnt))%nat.
Proof.
  intros Hfair. revert bn bd. induction cnt as [|cnt IH]; intros bn bd Hloop.
  - injection Hloop as <- <-. simpl. lia.
  - cbn [for_down] in Hloop.
    apply bind_Ret in Hloop as ([bn1 bd1] & Hlevel & Hloop).
    replace (Z.of_nat (S cnt) - 1) with (Z.of_nat cnt) in Hlevel, Hloop by lia.
    apply NearestNeighbors_level_length in Hlevel; [|done].
    rewrite (IH _ _ Hloop), Hlevel, seq_S, sum_list_with_app. simpl. lia.
Qed.

Lemma NearestNeighbors_length_sum o hnsw query k r :
  inv hnsw → fair o → NearestNeighbors o hnsw query k = Ret r →
  length r
  = (Z.to_nat k `min`
       sum_list_with (level_yield hnsw k) (seq 0 (Z.to_nat (MaxLevels hnsw))))%nat.
Proof.
  intros Hinv Hfair Hnn. unfold NearestNeighbors in Hnn.
  apply bind_Ret in Hnn as ([bn bd] & Hloop & Hnn).
  apply truncate_take in Hnn as [_ ->].
  rewrite (bottom_inv _ Hinv) in Hloop.
  pose proof (inv_levels _ Hinv) as Hlen.
  replace (Z.to_nat (MaxLevels hnsw - 1 + 1)) with (Z.to_nat (MaxLevels hnsw))
    in Hloop by lia.
  replace (MaxLevels hnsw - 1) with (Z.of_nat (Z.to_nat (MaxLevels hnsw)) - 1)
    in Hloop at 1 by lia.
  apply NearestNeighbors_loop_length in Hloop; [|done].
  rewrite length_take, Hloop. simpl. done.
Qed.

(** X11. How many vectors [NearestNeighbors(query, k)] returns on a
    reachable index: every level contributes the smaller of [k] and the
    number of entries of its table, and the result has the smaller of
    [k] and the sum of these contributions. An id present at several
    levels is counted at each of them. *)
Theorem NearestNeighbors_length_by_levels (maxNeighbors maxLevels : Z) (o : oracle)
    (hnsw : HNSW) (query : Vector.t) (k : Z) (r : list Vector.t) :
  reachable maxNeighbors maxLevels hnsw → fair o →
  NearestNeighbors o hnsw query k = Ret r →
  length r
  = (Z.to_nat k `min`
       sum_list_with (λ L, Z.to_nat k `min` size (level_table hnsw L))
                     (seq 0 (Z.to_nat maxLevels)))%nat.
Proof.
  intros (Hinv & _ & _ & <- & _)%reachable_inv Hfair Hnn.
  by apply (NearestNeighbors_length_sum o hnsw query k r).
Qed.

Lemma NearestNeighbors_length_by_levels_witness :
  length [point "b" 1; point "a" 10; point "b" 1]
  = (Z.to_nat 3 `min`
       sum_list_with (λ L, Z.to_nat 3 `min` size (level_table two_levels_ab L))
                     (seq 0 (Z.to_nat 2)))%nat.
Proof.
  apply (NearestNeighbors_length_by_levels 5 2 (in_order false) two_levels_ab origin 3
           [point "b" 1; point "a" 10; point "b" 1]).
  - apply reachable_two_levels_ab.
  - apply fair_in_order.
  - vm_compute. reflexivity.
Defined.

(** ** An index that holds one vector *)





(** ** What an update leaves under [id] *)

(** X13. After an [UpdateVector(id, newVector)] that returns [nil], the
    flat table holds [newVector] under [id], in a node whose [ID] is
    [id], and every level table that has [id] maps it to that same new
    node: the deletion that comes first leaves no entry for the old
    node at any level. *)
Theorem UpdateVector_replaces_vector (o : oracle) (id : string) (newVector : Vector.t)
    (hnsw hnsw' : HNSW) :
  Z.of_nat (length (levels hnsw)) = MaxLevels hnsw →
  UpdateVector o id newVector hnsw = Ret (hnsw', None) →
  ∃ n, deref_key hnsw' id = Ret n ∧
       HNSWNode.ID n = id ∧ HNSWNode.Vector n = newVector ∧
       ∀ (L : nat) p, level_table hnsw' L !! id = Some p → nodes hnsw' !! id = Some p.
Proof.
  intros Hlen Hupd. unfold UpdateVector in Hupd.
  destruct (nodes hnsw !! id) as [p0|] eqn:Hid; [|done].
  apply bind_Ret in Hupd as ([hnsw1 e1] & Hdel & Hupd).
  apply bind_Ret in Hupd as (hnsw2 & Hadd & Hupd). injection Hupd as <-.
  destruct (DeleteVector_tables _ _ _ _ Hlen Hdel) as (_ & _ & _ & _ & _ & _ & Htables1).
  apply AddVector_Ret in Hadd as [top Hadd].
  destruct (AddVector_at_Ret _ _ _ _ _ _ Hadd)
    as (_ & _ & _ & Hnodes2 & _ & _ & _ & _ & (n & Hn & HID & HV & _)).
  destruct (AddVector_at_tables _ _ _ _ _ _ Hadd) as (Htables2 & _).
  exists n. split_and!; [|done|done|].
  - unfold deref_key. rewrite Hnodes2, lookup_insert_eq. by apply deref_Some.
  - intros L p. rewrite Htables2, Hnodes2, lookup_insert_eq. case_decide.
    + by rewrite lookup_insert_eq.
    + by rewrite Htables1, lookup_delete_eq.
Qed.

Lemma UpdateVector_replaces_vector_witness :
  ∃ n, deref_key index_abc_updated "b" = Ret n ∧
       HNSWNode.ID n = "b" ∧ HNSWNode.Vector n = point "b2" 7 ∧
       ∀ (L : nat) p, level_table index_abc_updated L !! "b" = Some p →
                      nodes index_abc_updated !! "b" = Some p.
Proof.
  apply (UpdateVector_replaces_vector (in_order false) "b" (point "b2" 7)
           index_abc index_abc_updated).
  - reflexivity.
  - vm_compute. reflexivity.
Defined.

(** ** Vectors of different lengths *)

(** A scan that meets a node with fewer values than the inserted one
    fails. *)
Lemma findNeighbors_scan_panics h node n entries nb0 ds0 id' p' n' :
  h !! node = Some n →
  (∀ id q, (id, q) ∈ entries → is_Some (h !! q)) →
  (id', p') ∈ entries → id' ≠ HNSWNode.ID n → h !! p' = Some n' →
  (length (Vector.Values (HNSWNode.Vector n'))
   < length (Vector.Values (HNSWNode.Vector n)))%nat →
  findNeighbors_scan h node entries nb0 ds0 = Panic IndexOutOfRange.
Proof.
  intros Hnode Hall Hin Hne Hn' Hshort. revert nb0 ds0.
  induction entries as [|[id q] entries IH]; intros nb0 ds0.
  { by apply elem_of_nil in Hin. }
  cbn [findNeighbors_scan]. rewrite (deref_Some _ _ _ Hnode). simpl.
  assert ((id', p') ∈ entries →
          ∀ nb ds, findNeighbors_scan h node entries nb ds = Panic IndexOutOfRange)
    as Hrest.
  { intros Hin'. apply IH; [|done]. intros id0 q0 Hin0. apply (Hall id0 q0). by right. }
  apply elem_of_cons in Hin as [[= <- <-]|Hin].
  - rewrite decide_False by (by intros ?). rewrite (deref_Some _ _ _ Hn'). simpl.
    by rewrite euclideanDistance_panics.
  - case_decide; [by apply Hrest|].
    destruct (Hall id q) as [other Hother]; [by left|].
    rewrite (deref_Some _ _ _ Hother). simpl.
    destruct (decide (length (Vector.Values (HNSWNode.Vector n))
                      ≤ length (Vector.Values (HNSWNode.Vector other)))%nat) as [Hle|Hgt].
    + destruct (euclideanDistance_returns _ _ Hle) as [dist ->]. simpl. by apply Hrest.
    + rewrite euclideanDistance_panics by lia. done.
Qed.

(** X14. Inserting a vector with more values than a vector the index
    holds under another id fails: on a reachable index, [AddVector(id,
    vector)] panics with an index out of range when the flat table has
    some other id whose vector is shorter than [vector]. *)
Theorem AddVector_longer_vector_panics (maxNeighbors maxLevels : Z) (o : oracle)
    (id : string) (vector : Vector.t) (hnsw : HNSW) (id' : string) (v' : Vector.t) :
  reachable maxNeighbors maxLevels hnsw → fair o →
  stored hnsw id' v' → id' ≠ id →
  (length (Vector.Values v') < length (Vector.Values vector))%nat →
  AddVector o id vector hnsw = Panic IndexOutOfRange.
Proof.
  intros Hreach Hfair (p' & n' & Hp' & Hn' & <-) Hne Hshort.
  pose proof (reachable_aligned _ _ _ Hreach) as [Hflat _].
  destruct (nodes_populated _ _ _ id' Hreach) as [_ Hml1]; [by eexists|].
  apply reachable_inv in Hreach as (Hinv & _ & _ & Hml & _).
  rewrite Hml in Hflat. specialize (Hflat Hml1).
  unfold AddVector, AddVector_at, addNodeToLevel. rewrite (bottom_inv _ Hinv), Hml.
  set (node0 := {| HNSWNode.ID := id; HNSWNode.Neighbors := []; HNSWNode.Vector := vector |}).
  cbn [levels heap with_heap].
  destruct (index_Ret (levels hnsw) (maxLevels - 1)) as (m & Hidx & Hm).
  { rewrite (inv_levels _ Hinv). lia. }
  rewrite Hidx. simpl.
  rewrite (deref_Some _ _ node0) by (by rewrite list_lookup_middle). simpl.
  unfold findNeighbors. cbn [levels heap with_levels with_heap].
  destruct (index_Ret (<[Z.to_nat (maxLevels - 1) := Some (<[id := length (heap hnsw)]> (default ∅ m))]>
                         (levels hnsw)) (maxLevels - 1)) as (m1 & Hidx1 & Hm1).
  { rewrite length_insert, (inv_levels _ Hinv). lia. }
  rewrite Hidx1. simpl.
  rewrite list_lookup_insert_eq in Hm1 by (by eapply lookup_lt_Some).
  injection Hm1 as <-.
  rewrite (level_table_Some _ _ _ Hm) in Hflat.
  rewrite (findNeighbors_scan_panics _ _ node0 _ _ _ id' p' n'); [done| | | |done| |done].
  - by rewrite list_lookup_middle.
  - intros k q Hin. apply elem_of_range_map in Hin; [|done]. simpl in Hin.
    apply lookup_insert_Some in Hin as [[_ <-]|[_ Hq]].
    + rewrite list_lookup_middle; [by eexists|done].
    + rewrite Hflat in Hq. destruct (inv_nodes _ Hinv _ _ Hq) as (x & Hx & _).
      exists x. by apply lookup_app_l_Some.
  - apply elem_of_range_map; [done|]. simpl.
    rewrite lookup_insert_ne by done. by rewrite Hflat.
  - by apply lookup_app_l_Some.
Qed.

(** A vector of three values. *)
Definition solid (id : string) (x : float) : Vector.t :=
  {| Vector.ID := id; Vector.Values := [x; 0%float; 0%float] |}.

Lemma stored_index_abc_a : stored index_abc "a" (point "a" 10).
Proof. by exists 0%nat, (node "a" [] (point "a" 10)). Qed.

Lemma AddVector_longer_vector_panics_witness :
  AddVector (in_order false) "d" (solid "d" 7) index_abc = Panic IndexOutOfRange.
Proof.
  apply (AddVector_longer_vector_panics 5 1 (in_order false) "d" (solid "d" 7)
           index_abc "a" (point "a" 10)).
  - apply reachable_index_abc.
  - apply fair_in_order.
  - apply stored_index_abc_a.
  - discriminate.
  - simpl. lia.
Defined.

Lemma NearestNeighbors_scan_panics h query entries c0 d0 key p' n' :
  (∀ id q, (id, q) ∈ entries → is_Some (h !! q)) →
  (key, p') ∈ entries → h !! p' = Some n' →
  (length (Vector.Values (HNSWNode.Vector n')) < length (Vector.Values query))%nat →
  NearestNeighbors_scan h query entries c0 d0 = Panic IndexOutOfRange.
Proof.
  intros Hall Hin Hn' Hshort. revert c0 d0.
  induction entries as [|[id q] entries IH]; intros c0 d0.
  { by apply elem_of_nil in Hin. }
  cbn [NearestNeighbors_scan].
  apply elem_of_cons in Hin as [[= <- <-]|Hin].
  - rewrite (deref_Some _ _ _ Hn'). simpl. by rewrite euclideanDistance_panics.
  - destruct (Hall id q) as [other Hother]; [by left|].
    rewrite (deref_Some _ _ _ Hother). simpl.
    destruct (decide (length (Vector.Values query)
                      ≤ length (Vector.Values (HNSWNode.Vector other)))%nat) as [Hle|Hgt].
    + destruct (euclideanDistance_returns _ _ Hle) as [dist ->]. simpl.
      apply IH; [|done]. intros id0 q0 Hin0. apply (Hall id0 q0). by right.
    + rewrite euclideanDistance_panics by lia. done.
Qed.

(** X15. A query with more values than a vector the index holds fails:
    on a reachable index, [NearestNeighbors(query, k)] panics with an
    index out of range, for every [k], when the flat table has an id
    whose vector is shorter than the query. *)
Theorem NearestNeighbors_longer_query_panics (maxNeighbors maxLevels : Z) (o : oracle)
    (hnsw : HNSW) (query : Vector.t) (k : Z) (id' : string) (v' : Vector.t) :
  reachable maxNeighbors maxLevels hnsw → fair o →
  stored hnsw id' v' →
  (length (Vector.Values v') < length (Vector.Values query))%nat →
  NearestNeighbors o hnsw query k = Panic IndexOutOfRange.
Proof.
  intros Hreach Hfair (p' & n' & Hp' & Hn' & <-) Hshort.
  pose proof (reachable_aligned _ _ _ Hreach) as [Hflat _].
  destruct (nodes_populated _ _ _ id' Hreach) as [_ Hml1]; [by eexists|].
  apply reachable_inv in Hreach as (Hinv & _ & _ & Hml & _).
  rewrite Hml in Hflat. specialize (Hflat Hml1).
  unfold NearestNeighbors. rewrite (bottom_inv _ Hinv), Hml.
  replace (Z.to_nat (maxLevels - 1 + 1)) with (S (Z.to_nat (maxLevels - 1))) by lia.
  cbn [for_down].
  assert (NearestNeighbors_level o hnsw query k (maxLevels - 1) ([], [])
          = Panic IndexOutOfRange) as ->; [|done].
  unfold NearestNeighbors_level.
  destruct (index_Ret (levels hnsw) (maxLevels - 1)) as (m & Hidx & Hm).
  { rewrite (inv_levels _ Hinv). lia. }
  rewrite Hidx. simpl.
  rewrite (level_table_Some _ _ _ Hm) in Hflat.
  rewrite (NearestNeighbors_scan_panics _ _ _ _ _ id' p' n'); [done| | |done|done].
  - intros id q Hin. apply elem_of_range_map in Hin; [|done].
    rewrite Hflat in Hin. destruct (inv_nodes _ Hinv _ _ Hin) as (x & Hx & _). by exists x.
  - apply elem_of_range_map; [done|]. by rewrite Hflat.
Qed.

Lemma NearestNeighbors_longer_query_panics_witness :
  NearestNeighbors (in_order false) index_abc (solid "q" 0) 2 = Panic IndexOutOfRange.
Proof.
  apply (NearestNeighbors_longer_query_panics 5 1 (in_order false) index_abc
           (solid "q" 0) 2 "a" (point "a" 10)).
  - apply reachable_index_abc.
  - apply fair_in_order.
  - apply stored_index_abc_a.
  - simpl. lia.
Defined.

(** ** The search does not follow the links *)

Lemma for_range_ext {St} (body body' : Z → St → outcome St) lo n s :
  (∀ i s', body i s' = body' i s') → for_range body lo n s = for_range body' lo n s.
Proof.
  intros Hbody. revert lo s. induction n as [|n IH]; intros lo s; [done|].
  cbn [for_range]. rewrite Hbody. destruct (body' lo s); [|done]. simpl. apply IH.
Qed.

Lemma for_down_ext {St} (body body' : Z → St → outcome St) hi n s :
  (∀ i s', body i s' = body' i s') → for_down body hi n s = for_down body' hi n s.
Proof.
  intros Hbody. revert hi s. induction n as [|n IH]; intros hi s; [done|].
  cbn [for_down]. rewrite Hbody. destruct (body' hi s); [|done]. simpl. apply IH.
Qed.

Lemma NearestNeighbors_scan_similar h h' query entries c0 d0 :
  similar h h' →
  NearestNeighbors_scan h query entries c0 d0 = NearestNeighbors_scan h' query entries c0 d0.
Proof.
  intros Hsim. revert c0 d0.
  induction entries as [|[key p] entries IH]; intros c0 d0; [done|].
  cbn [NearestNeighbors_scan].
  pose proof (similar_deref h h' p Hsim) as Hp.
  destruct (deref h p) as [n|e], (deref h' p) as [n'|e']; try done; [|by subst].
  simpl. injection Hp as -> ->.
  destruct (euclideanDistance _ _); [|done]. simpl. apply IH.
Qed.

Lemma NearestNeighbors_take_similar hnsw hnsw' candidates distances i best :
  similar (heap hnsw) (heap hnsw') → nodes hnsw = nodes hnsw' →
  NearestNeighbors_take hnsw candidates distances i best
  = NearestNeighbors_take hnsw' candidates distances i best.
Proof.
  intros Hsim Hnodes. destruct best as [bn bd]. rewrite !NearestNeighbors_take_eq.
  destruct (index candidates i) as [c|]; [|done]. simpl.
  unfold deref_key. rewrite <-Hnodes. destruct (nodes hnsw !! c) as [p|]; [|done].
  pose proof (similar_deref _ _ p Hsim) as Hp.
  destruct (deref (heap hnsw) p) as [n|e], (deref (heap hnsw') p) as [n'|e'];
    try done; [|by subst].
  simpl. injection Hp as _ ->. done.
Qed.

Lemma NearestNeighbors_similar o hnsw hnsw' query k :
  similar (heap hnsw) (heap hnsw') → nodes hnsw = nodes hnsw' →
  levels hnsw = levels hnsw' → MaxLevels hnsw = MaxLevels hnsw' →
  NearestNeighbors o hnsw query k = NearestNeighbors o hnsw' query k.
Proof.
  intros Hsim Hnodes Hlevels Hml. unfold NearestNeighbors, bottom. rewrite <-Hml.
  rewrite (for_down_ext (NearestNeighbors_level o hnsw query k)
                        (NearestNeighbors_level o hnsw' query k)); [done|].
  intros level best. unfold NearestNeighbors_level. rewrite <-Hlevels.
  destruct (index (levels hnsw) level) as [m|]; [|done]. simpl.
  rewrite <-(NearestNeighbors_scan_similar _ _ _ _ _ _ Hsim).
  destruct (NearestNeighbors_scan _ _ _ _ _) as [[c d]|]; [|done]. simpl.
  destruct (SliceStable _ c) as [sorted|]; [|done]. simpl.
  apply for_range_ext. intros i best'. by apply NearestNeighbors_take_similar.
Qed.

(** X16. [NearestNeighbors] never reads a node's [Neighbors]: replace
    the [Neighbors] of every node object by any other list, and every
    query has the same outcome. The links that [addNodeToLevel] records
    play no part in the search, which scans the whole table of every
    level. *)
Theorem NearestNeighbors_ignores_Neighbors (o : oracle) (hnsw : HNSW)
    (relink : HNSWNode.t → list string) (query : Vector.t) (k : Z) :
  NearestNeighbors o
    (with_heap ((λ n, HNSWNode.with_Neighbors (relink n) n) <$> heap hnsw) hnsw) query k
  = NearestNeighbors o hnsw query k.
Proof.
  symmetry. apply NearestNeighbors_similar; try done.
  intros p. simpl. rewrite list_lookup_fmap. by destruct (heap hnsw !! p).
Qed.

(** ** Which values [euclideanDistance] reads *)

Lemma sum_squares_take v1 v2 sum :
  sum_squares v1 v2 sum = sum_squares v1 (take (length v1) v2) sum.
Proof.
  revert v2 sum. induction v1 as [|x v1 IH]; intros [|y v2] sum; simpl; done.
Qed.

(** X17. [euclideanDistance(v1, v2)] reads the values of [v2] at the
    positions of [v1] and nothing else of [v2]: two second arguments
    that agree on their first [len(v1.Values)] values give the same
    outcome, whatever their [ID]s and their further values. *)
Theorem euclideanDistance_reads_prefix (v1 v2 v2' : Vector.t) :
  take (length (Vector.Values v1)) (Vector.Values v2)
  = take (length (Vector.Values v1)) (Vector.Values v2') →
  euclideanDistance v1 v2 = euclideanDistance v1 v2'.
Proof.
  intros Htake. unfold euclideanDistance.
  by rewrite (sum_squares_take _ (Vector.Values v2)), Htake, <-sum_squares_take.
Qed.

Lemma euclideanDistance_reads_prefix_witness :
  euclideanDistance origin (point "a" 10) = euclideanDistance origin (solid "z" 10).
Proof.
  apply (euclideanDistance_reads_prefix origin (point "a" 10) (solid "z" 10)).
  reflexivity.
Defined.

(** ** The comparison of the tests: [equalVectors] *)

(** [for i := 0; i < len(v1.Values); i++ { if v1.Values[i] != v2.Values[i]
    { return false } }; return true], from [i] on, with [n] turns left. *)
Fixpoint equalVectors_loop (v1 v2 : list float) (i : Z) (n : nat) : outcome bool :=
  match n with
  | O => Ret true
  | S n' =>
      x ← index v1 i;
      y ← index v2 i;
      if negb (x =? y)%float then Ret false
      else equalVectors_loop v1 v2 (i + 1) n'
  end.

Definition equalVectors (v1 v2 : Vector.t) : outcome bool :=
  if negb (Z.of_nat (length (Vector.Values v1)) =? Z.of_nat (length (Vector.Values v2)))
  then Ret false
  else equalVectors_loop (Vector.Values v1) (Vector.Values v2) 0
                         (length (Vector.Values v1)).

Lemma index_middle {A} (pre : list A) (x : A) (post : list A) :
  index (pre ++ x :: post) (Z.of_nat (length pre)) = Ret x.
Proof.
  unfold index. destruct (Z.leb_spec 0 (Z.of_nat (length pre))); [|lia].
  by rewrite Nat2Z.id, list_lookup_middle.
Qed.

Lemma equalVectors_loop_Ret (pre1 pre2 l1 l2 : list float) :
  length pre1 = length pre2 → length l1 = length l2 →
  ∃ b, equalVectors_loop (pre1 ++ l1) (pre2 ++ l2) (Z.of_nat (length pre1)) (length l1)
       = Ret b ∧
       (b = true ↔ Forall2 (λ x y, (x =? y)%float = true) l1 l2).
Proof.
  revert pre1 pre2 l2. induction l1 as [|x l1 IH]; intros pre1 pre2 [|y l2] Hpre Hlen;
    simplify_eq/=.
  - exists true. split; [done|]. split; [constructor|done].
  - rewrite index_middle. simpl. rewrite Hpre, index_middle. simpl.
    destruct (x =? y)%float eqn:Hxy; simpl.
    + destruct (IH (pre1 ++ [x]) (pre2 ++ [y]) l2) as (b & Hloop & Hb).
      { rewrite !length_app. simpl. lia. }
      { done. }
      rewrite length_app in Hloop. simpl in Hloop.
      rewrite <-!app_assoc in Hloop. simpl in Hloop.
      replace (Z.of_nat (length pre2) + 1) with (Z.of_nat (length pre1 + 1)) by lia.
      exists b. split; [done|]. rewrite Hb. split.
      * intros Hrest. by constructor.
      * by intros [_ Hrest]%Forall2_cons.
    + exists false. split; [done|]. split; [done|].
      intros [Hhead _]%Forall2_cons. congruence.
Qed.

(** X18. [equalVectors(v1, v2)] never fails, whatever the two lengths:
    it returns [true] exactly when the two sequences of values have the
    same length and are equal at every position by the [==] of
    [float64], and [false] otherwise. The [ID]s are not compared. *)
Theorem equalVectors_true_iff (v1 v2 : Vector.t) :
  ∃ b, equalVectors v1 v2 = Ret b ∧
       (b = true ↔
        Forall2 (λ x y, (x =? y)%float = true) (Vector.Values v1) (Vector.Values v2)).
Proof.
  unfold equalVectors.
  destruct (Z.eqb_spec (Z.of_nat (length (Vector.Values v1)))
                       (Z.of_nat (length (Vector.Values v2)))) as [Heq|Hne]; simpl.
  - apply (equalVectors_loop_Ret [] []); [done|lia].
  - exists false. split; [done|]. split; [done|].
    intros Hall%Forall2_length. lia.
Qed.
